(** * Keyword-extraction scoring: a shallow embedding of [key_eval.py]

    The development follows the two source files of the repository:
    [key_eval.py] (the current evaluation module) and [KeyEval.py] (an older
    variant of the same functions, kept in [Module KeyEval] below).

    Modelling conventions.
    - A Python [str] is a [string]; its characters are read as code points
      below 256, and [isspace] is Python's predicate on that range.
    - A Python [float] is an exact rational ([Q]).  The scoring code only
      counts, divides, takes maxima and sums; equalities between scores are
      stated up to [Qeq].  Rounding is not part of this model: what is
      stated of the scores is what rounding leaves true (counts, bounds,
      maxima, the order of comparisons), and [Module Binary64] holds the
      R-precision functions on binary64 floats, where the order of a sum
      shows.
    - A Python exception is a value of [exn]; a computation that may raise
      is a [result], threaded through with [bind]. *)

From Stdlib Require Import List String Ascii Bool Arith ZArith QArith Lia.
From Stdlib Require Import Permutation.
From Stdlib Require Import PrimFloat Uint63.
Import ListNotations.

Open Scope string_scope.
Open Scope list_scope.

(** ** Exceptions and results *)

Inductive exn : Type :=
| ZeroDivisionError
| ValueError
| IndexError
| ModelFailure (code : nat).

Inductive result (A : Type) : Type :=
| Ok (a : A)
| Raise (e : exn).

Arguments Ok {A} a.
Arguments Raise {A} e.

Definition bind {A B : Type} (r : result A) (k : A -> result B) : result B :=
  match r with
  | Ok a => k a
  | Raise e => Raise e
  end.

Notation "x <- r ;; k" := (bind r (fun x => k))
  (at level 61, r at next level, right associativity).

(** [for x in l: out.append(f(x))], where [f] may raise. *)
Fixpoint for_append {A B : Type} (f : A -> result B) (l : list A) : result (list B) :=
  match l with
  | [] => Ok []
  | x :: l' =>
      y <- f x ;;
      ys <- for_append f l' ;;
      Ok (y :: ys)
  end.

(** [try: r except Exception: handler] *)
Definition try_except {A : Type} (r : result A) (handler : A) : A :=
  match r with
  | Ok a => a
  | Raise _ => handler
  end.

(** ** Python strings *)

Definition isspace (c : ascii) : bool :=
  let n := nat_of_ascii c in
  (((9 <=? n) && (n <=? 13)) || ((28 <=? n) && (n <=? 32)) || (n =? 133) || (n =? 160))%nat.

(** [needle in hay] on strings: substring containment. *)
Fixpoint str_in (needle hay : string) : bool :=
  if prefix needle hay then true
  else match hay with
       | EmptyString => false
       | String _ hay' => str_in needle hay'
       end.

(** [each in l] on a list of strings: membership by equality. *)
Definition list_in (each : string) (l : list string) : bool :=
  existsb (String.eqb each) l.

(** [s.split()]: the maximal runs of non-whitespace characters of [s];
    [cur] is the run being read. *)
Fixpoint split_from (s cur : string) : list string :=
  match s with
  | EmptyString =>
      match cur with
      | EmptyString => []
      | _ => [cur]
      end
  | String c s' =>
      if isspace c then
        match cur with
        | EmptyString => split_from s' ""
        | _ => cur :: split_from s' ""
        end
      else split_from s' (cur ++ String c "")
  end.

Definition split (s : string) : list string := split_from s "".

(** [s.split(sep)] for a non-empty [sep]: a left-to-right scan for
    non-overlapping occurrences; [skip] counts the characters of an
    occurrence still to be passed over, [cur] is the field being read. *)
Fixpoint split_scan (sep s : string) (skip : nat) (cur : string) : list string :=
  match s with
  | EmptyString => [cur]
  | String c s' =>
      match skip with
      | S k => split_scan sep s' k cur
      | O =>
          if prefix sep s
          then cur :: split_scan sep s' (String.length sep - 1) ""
          else split_scan sep s' 0 (cur ++ String c "")
      end
  end.

Definition split_on (sep s : string) : list string := split_scan sep s 0 "".

(** ** Python floats and the numeric builtins the scoring code uses *)

Definition float_of_len {A : Type} (l : list A) : Q := inject_Z (Z.of_nat (List.length l)).

(** [x / y] *)
Definition truediv (x y : Q) : result Q :=
  if Qeq_bool y 0 then Raise ZeroDivisionError else Ok (x / y)%Q.

(** [max(l)]: the first maximal item; [ValueError] on an empty sequence. *)
Definition py_max (l : list Q) : result Q :=
  match l with
  | [] => Raise ValueError
  | x :: l' => Ok (fold_left (fun m y => if Qle_bool y m then m else y) l' x)
  end.

(** [sum(l)] *)
Definition py_sum (l : list Q) : Q := fold_left Qplus l 0%Q.

(** ** Scoring functions of [key_eval.py] *)

Definition get_recall (l1 l2 : list string) : result Q :=
  let occur_count :=
    fold_left (fun occ each => if list_in each l1 then (occ + 1)%Q else occ) l2 0%Q in
  truediv occur_count (float_of_len l1).

Definition get_precision (l1 l2 : list string) : result Q :=
  let occur_count :=
    fold_left (fun occ each => if list_in each l1 then (occ + 1)%Q else occ) l2 0%Q in
  truediv occur_count (float_of_len l2).

Definition get_f1 (r p : Q) : result Q :=
  if Qeq_bool (r + p) 0 then Ok 0%Q
  else truediv (2 * p * r)%Q (p + r)%Q.

Definition get_Rprecision (phrase1 phrase2 : string) : result Q :=
  let occur_count :=
    fold_left (fun occ w1 => if str_in w1 phrase1 then (occ + 1)%Q else occ)
              (split phrase2) 0%Q in
  truediv occur_count
          (inject_Z (Z.of_nat (Nat.max (List.length (split phrase2))
                                       (List.length (split phrase1))))).

Definition get_all_Rprecision (gold_keywords predicted_keywords : list string) : result Q :=
  scores <- for_append
              (fun gphrase =>
                 rscores <- for_append (fun pphrase => get_Rprecision gphrase pphrase)
                                       predicted_keywords ;;
                 py_max rscores)
              gold_keywords ;;
  truediv (py_sum scores) (float_of_len scores).

(** The tuple [(f1, recall, precision, Rprecision)]. *)
Definition ScoreTuple : Type := (Q * Q * Q * Q)%type.

Definition get_scores (gold_keywords predicted_keywords : list string) : result ScoreTuple :=
  recall <- get_recall gold_keywords predicted_keywords ;;
  precision <- get_precision gold_keywords predicted_keywords ;;
  f1 <- get_f1 recall precision ;;
  Rprecision <- get_all_Rprecision gold_keywords predicted_keywords ;;
  Ok (f1, recall, precision, Rprecision).

(** A Python sequence of floats ([adjusted_metrics] is [[]] or a score
    tuple); a score tuple seen as such a sequence. *)
Definition seq_of (t : ScoreTuple) : list Q :=
  let '(f1, recall, precision, Rprecision) := t in [f1; recall; precision; Rprecision].

(** The loop building [adjusted_gold]. *)
Definition adjusted_gold_of (gold_keywords : list string) (text : string) : list string :=
  fold_left (fun adjusted_gold each =>
               if str_in each text then adjusted_gold ++ [each] else adjusted_gold)
            gold_keywords [].

Definition truthy (text : string) : bool :=
  match text with
  | EmptyString => false
  | _ => true
  end.

Definition get_all_scores (gold_keywords predicted_keywords : list string)
           (text : string) (adjust : bool) : result (ScoreTuple * list Q) :=
  metrics <- get_scores gold_keywords predicted_keywords ;;
  if adjust then
    if truthy text then
      let adjusted_gold := adjusted_gold_of gold_keywords text in
      if (List.length adjusted_gold <? 1)%nat then Ok (metrics, [])
      else
        adjusted_metrics <- get_scores adjusted_gold predicted_keywords ;;
        Ok (metrics, seq_of adjusted_metrics)
    else Ok (metrics, [])
  else Ok (metrics, []).


(** ** Relaxed R-precision on binary64 floats

    The same functions with Python's floats as they are, IEEE 754 binary64
    numbers: every [/] and every [+] rounds.  [sum] adds from left to right,
    starting from the integer 0 (CPython before 3.12). *)

Module Binary64.

(** [float(n)] for an [int] *)
Definition of_int (n : nat) : float := PrimFloat.of_uint63 (Uint63.of_Z (Z.of_nat n)).

(** [x / y] *)
Definition truediv (x y : float) : result float :=
  if PrimFloat.eqb y (of_int 0) then Raise ZeroDivisionError else Ok (PrimFloat.div x y).

(** [max(l)] *)
Definition py_max (l : list float) : result float :=
  match l with
  | [] => Raise ValueError
  | x :: l' => Ok (fold_left (fun m y => if PrimFloat.ltb m y then y else m) l' x)
  end.

(** [sum(l)] *)
Definition py_sum (l : list float) : float := fold_left PrimFloat.add l (of_int 0).

Definition get_Rprecision (phrase1 phrase2 : string) : result float :=
  let occur_count :=
    fold_left (fun occ w1 => if str_in w1 phrase1 then PrimFloat.add occ (of_int 1) else occ)
              (split phrase2) (of_int 0) in
  truediv occur_count
          (of_int (Nat.max (List.length (split phrase2)) (List.length (split phrase1)))).

Definition get_all_Rprecision (gold_keywords predicted_keywords : list string) : result float :=
  scores <- for_append
              (fun gphrase =>
                 rscores <- for_append (fun pphrase => get_Rprecision gphrase pphrase)
                                       predicted_keywords ;;
                 py_max rscores)
              gold_keywords ;;
  truediv (py_sum scores) (of_int (List.length scores)).

End Binary64.

(** ** [mask]

    The dict [vectors] is the list of its entries in insertion order; a
    lookup of a missing key, Python's [KeyError], is [None].  The items are
    what the loops iterate over: the characters of a [str], or the phrases
    of a list. *)

Definition dict : Type := list (string * nat).

(** [vectors[key]], and [key not in vectors] when it is [None]. *)
Fixpoint dict_get (vectors : dict) (key : string) : option nat :=
  match vectors with
  | [] => None
  | (k, v) :: vectors' => if String.eqb key k then Some v else dict_get vectors' key
  end.

(** [vectors[key] = value] *)
Fixpoint dict_set (vectors : dict) (key : string) (value : nat) : dict :=
  match vectors with
  | [] => [(key, value)]
  | (k, v) :: vectors' =>
      if String.eqb key k then (k, value) :: vectors'
      else (k, v) :: dict_set vectors' key value
  end.

(** One round of either loop, on the state [(vectors, base, vector)]. *)
Definition mask_step (st : dict * nat * list nat) (phrase : string)
  : option (dict * nat * list nat) :=
  let '(vectors, base, vector) := st in
  let '(vectors, base) :=
    match dict_get vectors phrase with
    | None => (dict_set vectors phrase base, S base)
    | Some _ => (vectors, base)
    end in
  match dict_get vectors phrase with
  | Some code => Some (vectors, base, vector ++ [code])
  | None => None
  end.

Fixpoint mask_loop (text : list string) (st : dict * nat * list nat)
  : option (dict * nat * list nat) :=
  match text with
  | [] => Some st
  | phrase :: text' =>
      match mask_step st phrase with
      | Some st' => mask_loop text' st'
      | None => None
      end
  end.

Definition mask (text1 text2 : list string) : option (list nat * list nat) :=
  match mask_loop text1 ([], 0%nat, []) with
  | Some (vectors, base, vector1) =>
      match mask_loop text2 (vectors, base, []) with
      | Some (_, _, vector2) => Some (vector1, vector2)
      | None => None
      end
  | None => None
  end.

(** ** Keyword parser: the per-field loop body of [get_key_abs]

    [clean] lives in [Datasets/utils.py], outside the files modelled here; it
    is a parameter of the parser. *)

Definition tab : string := String (ascii_of_nat 9) "".

Section KeywordParser.

Variable clean : string -> string.

(** The inner loop over the fragments, [new] being the list under
    construction. *)
Definition extend_new (new : list string) (key : string) : list string :=
  if str_in "---" key then new ++ map clean (split_on "---" key)
  else new ++ [clean key].

Definition process_keyword (raw : string) : list string :=
  let keyword :=
    if str_in ";" raw then split_on ";" raw
    else if str_in "," raw then split_on "," raw
    else if str_in tab raw then split_on tab raw
    else split_on " to" raw in
  fold_left extend_new keyword [].

Definition process_keywords (keywords : list string) : list (list string) :=
  map process_keyword keywords.

End KeywordParser.

(** ** The per-document loop of [eval_file]

    Timing, the progress bar and the rendering of rows to text are left out;
    the rows written to the per-model file are kept as data. *)

Record KeyModel : Type := {
  model_name : string;
  get_keywords : string -> nat -> result (list (list string))
}.

(** [seq[0]] *)
Definition item0 {A : Type} (seq : list A) : result A :=
  match seq with
  | [] => Raise IndexError
  | x :: _ => Ok x
  end.

Record data_row : Type := {
  row_abstract : string;
  row_gold : list string;
  row_predicted : list string;
  row_scores : list Q * list Q
}.

Record eval_state : Type := {
  all_scores : list (list Q);
  all_scores_adjust : list (list Q);
  data_file : list data_row
}.

Definition zero_pair : list Q * list Q := ([0; 0; 0; 0]%Q, [0; 0; 0; 0]%Q).

(** The body of the [try] block and its handler. *)
Definition score_document (gold : list string) (predicted_keywords : list (list string))
           (abstract : string) : list Q * list Q :=
  try_except
    (predicted <- item0 predicted_keywords ;;
     scores <- get_all_scores gold predicted abstract true ;;
     Ok (seq_of (fst scores), snd scores))
    zero_pair.

Definition nonempty {A : Type} (l : list A) : bool :=
  match l with
  | [] => false
  | _ => true
  end.

Definition eval_step (model : KeyModel) (top_n : nat) (st : eval_state)
           (doc : list string * string) : result eval_state :=
  let '(gold, abstract) := doc in
  predicted_keywords <- get_keywords model abstract top_n ;;
  let scores := score_document gold predicted_keywords abstract in
  predicted <- item0 predicted_keywords ;;
  Ok {| all_scores := all_scores st ++ [fst scores];
        all_scores_adjust :=
          if nonempty (snd scores) then all_scores_adjust st ++ [snd scores]
          else all_scores_adjust st;
        data_file := data_file st ++
                       [{| row_abstract := abstract; row_gold := gold;
                           row_predicted := predicted; row_scores := scores |}] |}.

Fixpoint eval_file_loop (model : KeyModel) (top_n : nat) (st : eval_state)
         (docs : list (list string * string)) : result eval_state :=
  match docs with
  | [] => Ok st
  | doc :: docs' =>
      st' <- eval_step model top_n st doc ;;
      eval_file_loop model top_n st' docs'
  end.

Definition initial_state : eval_state :=
  {| all_scores := []; all_scores_adjust := []; data_file := [] |}.

(** [eval_file] from the creation of [all_scores] to the end of its loop,
    on the two lists that [get_key_abs] returned: they are two columns of one
    data frame, of the same length.  The means, the label and the log files
    that follow the loop are not modelled. *)
Definition eval_file (model : KeyModel) (top_n : nat)
           (keywords_gold : list (list string)) (abstracts : list string) : result eval_state :=
  eval_file_loop model top_n initial_state (combine keywords_gold abstracts).

(** ** The older variant, [KeyEval.py]

    Its [get_recall], [get_precision], [get_f1], [get_Rprecision],
    [get_all_Rprecision] and [get_scores] compute what the functions above
    compute; [get_all_scores] and the keyword parser differ. *)

Module KeyEval.

Definition get_all_scores (gold_keywords predicted_keywords : list string)
           (text : option string) (adjust : bool) : result (ScoreTuple * list Q) :=
  metrics <- get_scores gold_keywords predicted_keywords ;;
  if adjust then
    match text with
    | Some text =>
        if truthy text then
          let adjusted_gold := adjusted_gold_of gold_keywords text in
          if (List.length adjusted_gold <? 1)%nat then Ok (metrics, repeat 0%Q 4)
          else
            adjusted_metrics <- get_scores adjusted_gold predicted_keywords ;;
            Ok (metrics, seq_of adjusted_metrics)
        else Ok (metrics, [])
    | None => Ok (metrics, [])
    end
  else Ok (metrics, []).

Section KeywordParser.

Variable clean : string -> string.

Definition process_keyword (raw : string) : list string :=
  let keyword :=
    if str_in ";" raw then split_on ";" raw
    else if str_in "," raw then split_on "," raw
    else split_on " to" raw in
  fold_left (extend_new clean) keyword [].

End KeywordParser.

(** The loop of [eval_file] in [KeyEval.py]: no [try], and
    [get_all_scores] called with its default [adjust=False].
    [get_keywords] is the method of the [keyBert] model that the function
    creates; the data frame and the printing that follow are left out. *)
Definition eval_step (get_keywords : string -> result (list (list string)))
           (all_scores : list ScoreTuple) (doc : list string * string)
  : result (list ScoreTuple) :=
  let '(gold, abstract) := doc in
  predicted_keywords <- get_keywords abstract ;;
  predicted <- item0 predicted_keywords ;;
  scores <- get_all_scores gold predicted (Some abstract) false ;;
  Ok (all_scores ++ [fst scores]).

Fixpoint eval_file_loop (get_keywords : string -> result (list (list string)))
         (all_scores : list ScoreTuple) (docs : list (list string * string))
  : result (list ScoreTuple) :=
  match docs with
  | [] => Ok all_scores
  | doc :: docs' =>
      all_scores' <- eval_step get_keywords all_scores doc ;;
      eval_file_loop get_keywords all_scores' docs'
  end.

Definition eval_file (get_keywords : string -> result (list (list string)))
           (keywords_gold : list (list string)) (abstracts : list string)
  : result (list ScoreTuple) :=
  eval_file_loop get_keywords [] (combine keywords_gold abstracts).

End KeyEval.

(** * Specification-level definitions

    The quantities of the specification, written after its words, and the
    notions the statements below are phrased with. *)

(** Two outcomes agree: the same exception, or values equal as rationals. *)
Definition res_eq (r1 r2 : result Q) : Prop :=
  match r1, r2 with
  | Ok a, Ok b => (a == b)%Q
  | Raise e1, Raise e2 => e1 = e2
  | _, _ => False
  end.

(** A count or a length as a float. *)
Definition Qnat (n : nat) : Q := inject_Z (Z.of_nat n).

(** The count of the spec: the items of [predicted], each counted as often
    as it occurs there, that appear in [gold]. *)
Definition overlap_count (gold predicted : list string) : nat :=
  List.length (filter (fun p => if in_dec string_dec p gold then true else false) predicted).

(** Recall and precision of the spec, a non-empty denominator list being
    their precondition. *)
Definition recall_spec (gold predicted : list string) : result Q :=
  match gold with
  | [] => Raise ZeroDivisionError
  | _ => Ok (Qnat (overlap_count gold predicted) / Qnat (List.length gold))%Q
  end.

Definition precision_spec (gold predicted : list string) : result Q :=
  match predicted with
  | [] => Raise ZeroDivisionError
  | _ => Ok (Qnat (overlap_count gold predicted) / Qnat (List.length predicted))%Q
  end.

(** The spec's AdjustedGold: the gold phrases found in the text, in order. *)
Definition AdjustedGold (gold : list string) (text : string) : list string :=
  filter (fun g => str_in g text) gold.

(** The string is empty or made of whitespace only. *)
Fixpoint all_space (s : string) : bool :=
  match s with
  | EmptyString => true
  | String c s' => isspace c && all_space s'
  end.

(** The tokens of [phrase2] that occur somewhere in [phrase1]. *)
Definition matched_tokens (phrase1 phrase2 : string) : list string :=
  filter (fun w => str_in w phrase1) (split phrase2).

(** The larger of the two token counts. *)
Definition token_max (phrase1 phrase2 : string) : nat :=
  Nat.max (List.length (split phrase2)) (List.length (split phrase1)).

(** [m] is attained in [l] and bounds it from above. *)
Definition is_maximum (m : Q) (l : list Q) : Prop :=
  (exists x, In x l /\ (x == m)%Q) /\ (forall y, In y l -> (y <= m)%Q).

(** One step of [max]: the running maximum [m] is replaced by [y] only when
    [y > m]. *)
Definition max_step (m y : Q) : Q := if Qle_bool y m then m else y.

(** The maximum and the average of the spec. *)
Definition Qmax2 (a b : Q) : Q := if Qle_bool a b then b else a.

Fixpoint maximum (l : list Q) : Q :=
  match l with
  | [] => 0
  | x :: l' =>
      match l' with
      | [] => x
      | _ => Qmax2 x (maximum l')
      end
  end.

Definition Qsum (l : list Q) : Q := fold_right Qplus 0%Q l.

Definition average (l : list Q) : Q := (Qsum l / Qnat (List.length l))%Q.

(** The value of the spec for two phrases, and whether the division that
    produces it is defined: at least one of the phrases has a token. *)
Definition Rprecision_value (phrase1 phrase2 : string) : Q :=
  (Qnat (List.length (matched_tokens phrase1 phrase2)) / Qnat (token_max phrase1 phrase2))%Q.

Definition pair_defined (phrase1 phrase2 : string) : bool :=
  nonempty (split phrase1) || nonempty (split phrase2).

(** The best score of a gold phrase against the predicted phrases. *)
Definition best_score (predicted : list string) (gphrase : string) : Q :=
  maximum (map (Rprecision_value gphrase) predicted).

(** The aggregate of the spec, with its two failures; a third one, a pair of
    phrases without any token, comes from [get_Rprecision]. *)
Definition aggregate_spec (gold predicted : list string) : result Q :=
  match gold, predicted with
  | [], _ => Raise ZeroDivisionError
  | _ :: _, [] => Raise ValueError
  | _ :: _, _ :: _ =>
      if forallb (fun g => forallb (pair_defined g) predicted) gold
      then Ok (average (map (best_score predicted) gold))
      else Raise ZeroDivisionError
  end.

(** The body of the outer loop, for one gold phrase. *)
Definition best_of (predicted_keywords : list string) (gphrase : string) : result Q :=
  rscores <- for_append (fun pphrase => get_Rprecision gphrase pphrase) predicted_keywords ;;
  py_max rscores.

(** Every gold phrase has a defined score against every predicted phrase. *)
Definition all_pairs_defined (gold predicted : list string) : bool :=
  forallb (fun g => forallb (pair_defined g) predicted) gold.

(** The first component of a returned pair; an exception stays. *)
Definition fst_result {A B : Type} (r : result (A * B)) : result A :=
  x <- r ;; Ok (fst x).

(** [sep.join(fields)] *)
Fixpoint join (sep : string) (fields : list string) : string :=
  match fields with
  | [] => ""
  | [f] => f
  | f :: fields' => (f ++ sep ++ join sep fields')%string
  end.

(** The delimiter of the spec: the first of semicolon, comma and tab that
    occurs in the field, [" to"] when none does. *)
Definition delimiter (raw : string) : string :=
  match find (fun d => str_in d raw) [";"; ","; tab] with
  | Some d => d
  | None => " to"
  end.

(** Every fragment is split on ["---"] and its parts are normalized. *)
Definition normalized_fields (clean : string -> string) (fragments : list string) : list string :=
  flat_map (fun fragment => map clean (split_on "---" fragment)) fragments.

(** The interval [[0, 1]]. *)
Definition in_unit (q : Q) : Prop := (0 <= q)%Q /\ (q <= 1)%Q.

(** The recall of the docstring of [get_recall]: "the proportion of elements
    in l1 that also appear in l2". *)
Definition recall_docstring (l1 l2 : list string) : Q :=
  (Qnat (List.length (filter (fun x => list_in x l2) l1)) / Qnat (List.length l1))%Q.

(** The score pair of a document whose prediction is [predicted]: the pair
    that [get_all_scores] returns, the all-zero pair when it raises. *)
Definition scored (gold predicted : list string) (abstract : string) : list Q * list Q :=
  match get_all_scores gold predicted abstract true with
  | Ok (metrics, adjusted_metrics) => (seq_of metrics, adjusted_metrics)
  | Raise _ => zero_pair
  end.

(** The row written for a document on which the model call returned. *)
Definition document_row (model : KeyModel) (top_n : nat)
           (doc : list string * string) (row : data_row) : Prop :=
  exists predicted rest,
    get_keywords model (snd doc) top_n = Ok (predicted :: rest) /\
    row = {| row_abstract := snd doc; row_gold := fst doc; row_predicted := predicted;
             row_scores := scored (fst doc) predicted (snd doc) |}.

(** A model that fails on the abstract ["bad"]. *)
Definition moody_model : KeyModel :=
  {| model_name := "moody";
     get_keywords := fun text _ =>
                       if String.eqb text "bad" then Raise (ModelFailure 1)
                       else Ok [["deep learning"]] |}.

(** Two returned score tuples agree: the same exception, or the same four
    scores as rationals. *)
Definition scores_eq (r1 r2 : result ScoreTuple) : Prop :=
  match r1, r2 with
  | Ok (f1, recall, precision, Rprecision), Ok (f1', recall', precision', Rprecision') =>
      (f1 == f1')%Q /\ (recall == recall')%Q /\ (precision == precision')%Q /\
      (Rprecision == Rprecision')%Q
  | Raise e1, Raise e2 => e1 = e2
  | _, _ => False
  end.

(** Whether a document enters [all_scores_adjust]: its scoring raised, or
    its non-empty abstract contains a gold keyword. *)
Definition adjust_counted (gold predicted : list string) (abstract : string) : bool :=
  match get_scores gold predicted with
  | Raise _ => true
  | Ok _ => truthy abstract && nonempty (AdjustedGold gold abstract)
  end.


(** The distinct items of a list in the order of their first occurrence,
    starting from the items [order] already met. *)
Definition first_occurrences_from (order text : list string) : list string :=
  fold_left (fun order x => if list_in x order then order else order ++ [x]) text order.

Definition first_occurrences (text : list string) : list string :=
  first_occurrences_from [] text.

(** The rank of an item among [order]: the index of its first occurrence. *)
Fixpoint position (order : list string) (x : string) : nat :=
  match order with
  | [] => 0
  | y :: order' => if String.eqb x y then 0 else S (position order' x)
  end.

(** The dict that codes the items of [order] by [n], [n + 1], ... *)
Definition entries_from (n : nat) (order : list string) : dict :=
  combine order (seq n (List.length order)).

(** ** The words of the spec for relaxed R-precision, independent of the
    code's own tests and loops *)

(** [w] occurs in [s] as a contiguous run of characters. *)
Definition occurs_in (w s : string) : Prop :=
  exists a b, s = (a ++ w ++ b)%string.

(** No character of the string is whitespace. *)
Fixpoint no_space (s : string) : bool :=
  match s with
  | EmptyString => true
  | String c s' => negb (isspace c) && no_space s'
  end.

(** The string is empty or begins with a whitespace character. *)
Definition starts_blank (s : string) : Prop :=
  match s with
  | EmptyString => True
  | String c _ => isspace c = true
  end.

(** [tokens_of s tokens]: [tokens] are the whitespace-separated tokens of
    [s], its maximal runs of characters that are not whitespace, from left
    to right. *)
Inductive tokens_of : string -> list string -> Prop :=
| tokens_none (ws : string) :
    all_space ws = true -> tokens_of ws []
| tokens_next (ws t rest : string) (tokens : list string) :
    all_space ws = true -> t <> "" -> no_space t = true -> starts_blank rest ->
    tokens_of rest tokens ->
    tokens_of (ws ++ t ++ rest) (t :: tokens).

(** [count_of P l n]: exactly [n] items of [l], counted with their
    multiplicity, satisfy [P]. *)
Inductive count_of {A : Type} (P : A -> Prop) : list A -> nat -> Prop :=
| count_nil : count_of P [] 0
| count_yes (x : A) (l : list A) (n : nat) :
    P x -> count_of P l n -> count_of P (x :: l) (S n)
| count_no (x : A) (l : list A) (n : nat) :
    ~ P x -> count_of P l n -> count_of P (x :: l) n.

(** The delimiter of the older parser, which has no tab step: the first of
    semicolon and comma that occurs in the field, [" to"] when none does. *)
Definition KeyEval_delimiter (raw : string) : string :=
  match find (fun d => str_in d raw) [";"; ","] with
  | Some d => d
  | None => " to"
  end.


(** Two outcomes of [get_scores] agree on f1, recall and precision, or are
    the same exception. *)
Definition scores_agree3 (r1 r2 : result ScoreTuple) : Prop :=
  match r1, r2 with
  | Ok (f1, recall, precision, _), Ok (f1', recall', precision', _) =>
      (f1 == f1')%Q /\ (recall == recall')%Q /\ (precision == precision')%Q
  | Raise e1, Raise e2 => e1 = e2
  | _, _ => False
  end.

(** * Properties *)

(** ** Results compared up to the equality of rationals *)

Lemma res_eq_refl (r : result Q) : res_eq r r.
Proof. destruct r; simpl; [apply Qeq_refl | reflexivity]. Qed.

Lemma res_eq_sym (r1 r2 : result Q) : res_eq r1 r2 -> res_eq r2 r1.
Proof.
  destruct r1, r2; simpl; intros H; try contradiction.
  - now apply Qeq_sym.
  - now symmetry.
Qed.

Lemma res_eq_trans (r1 r2 r3 : result Q) : res_eq r1 r2 -> res_eq r2 r3 -> res_eq r1 r3.
Proof.
  destruct r1, r2, r3; simpl; intros H1 H2; try contradiction.
  - now apply Qeq_trans with a0.
  - congruence.
Qed.

(** ** Arithmetic of the builtins *)

Lemma Qnat_S (n : nat) : (Qnat (S n) == Qnat n + 1)%Q.
Proof.
  unfold Qnat. rewrite Nat2Z.inj_succ, <- Z.add_1_r, inject_Z_plus. reflexivity.
Qed.

Lemma Qnat_nonneg (n : nat) : (0 <= Qnat n)%Q.
Proof. unfold Qnat, Qle; simpl. lia. Qed.

Lemma Qnat_le (n m : nat) : (n <= m)%nat -> (Qnat n <= Qnat m)%Q.
Proof. intros H. unfold Qnat. rewrite <- Zle_Qle. lia. Qed.

Lemma Qnat_pos (n : nat) : (0 < n)%nat -> (0 < Qnat n)%Q.
Proof. intros H. unfold Qnat, Qlt; simpl. lia. Qed.

Lemma Qeq_bool_Qnat_0 (n : nat) : Qeq_bool (Qnat n) 0 = Nat.eqb n 0.
Proof.
  destruct n as [|n]; [reflexivity|].
  apply not_true_is_false. intros H. apply Qeq_bool_eq in H.
  pose proof (Qnat_pos (S n) ltac:(lia)) as Hp. rewrite H in Hp.
  now apply Qlt_irrefl in Hp.
Qed.

Lemma truediv_Qnat_0 (x : Q) : truediv x (Qnat 0) = Raise ZeroDivisionError.
Proof. reflexivity. Qed.

Lemma truediv_Qnat_S (x : Q) (n : nat) : truediv x (Qnat (S n)) = Ok (x / Qnat (S n))%Q.
Proof. unfold truediv. now rewrite Qeq_bool_Qnat_0. Qed.

Lemma truediv_res_eq (x x' y : Q) : (x == x')%Q -> res_eq (truediv x y) (truediv x' y).
Proof.
  intros H. unfold truediv. destruct (Qeq_bool y 0); simpl; [reflexivity|].
  now rewrite H.
Qed.

(** The counting loops: [occ] grows by one for every item that passes the
    test. *)
Lemma count_loop {A : Type} (test : A -> bool) (l : list A) (occ : Q) :
  (fold_left (fun occ x => if test x then occ + 1 else occ) l occ
   == occ + Qnat (List.length (filter test l)))%Q.
Proof.
  revert occ. induction l as [|x l IH]; intros occ; simpl.
  - unfold Qnat; simpl. ring.
  - rewrite IH. destruct (test x); simpl List.length.
    + rewrite Qnat_S. ring.
    + reflexivity.
Qed.

Lemma list_in_iff (x : string) (l : list string) : list_in x l = true <-> In x l.
Proof.
  unfold list_in. rewrite existsb_exists. split.
  - intros [y [Hy He]]. apply String.eqb_eq in He. now subst.
  - intros H. exists x. split; [assumption | apply String.eqb_refl].
Qed.

(** ** C1: recall and precision *)

Lemma occur_count_overlap (gold predicted : list string) :
  (fold_left (fun occ each => if list_in each gold then occ + 1 else occ) predicted 0
   == Qnat (overlap_count gold predicted))%Q.
Proof.
  rewrite count_loop. unfold overlap_count.
  rewrite (filter_ext (fun p => list_in p gold)
                      (fun p => if in_dec string_dec p gold then true else false)).
  - ring.
  - intros p. destruct (in_dec string_dec p gold) as [Hi|Hn].
    + now apply list_in_iff.
    + apply not_true_is_false. intros H. now apply list_in_iff in H.
Qed.

Lemma get_recall_formula (gold predicted : list string) :
  res_eq (get_recall gold predicted) (recall_spec gold predicted).
Proof.
  unfold get_recall, recall_spec, float_of_len.
  destruct gold as [|g gold]; [reflexivity|].
  eapply res_eq_trans; [apply truediv_res_eq, occur_count_overlap|].
  change (inject_Z (Z.of_nat (List.length (g :: gold)))) with (Qnat (S (List.length gold))).
  rewrite truediv_Qnat_S. simpl. reflexivity.
Qed.

Lemma get_precision_formula (gold predicted : list string) :
  res_eq (get_precision gold predicted) (precision_spec gold predicted).
Proof.
  unfold get_precision, precision_spec, float_of_len.
  destruct predicted as [|p predicted]; [reflexivity|].
  eapply res_eq_trans; [apply truediv_res_eq, occur_count_overlap|].
  change (inject_Z (Z.of_nat (List.length (p :: predicted))))
    with (Qnat (S (List.length predicted))).
  rewrite truediv_Qnat_S. simpl. reflexivity.
Qed.

(** C1. [get_recall gold predicted] is the number of items of [predicted]
    (with their multiplicity) that appear in [gold], divided by [len(gold)],
    and [get_precision gold predicted] is the same count divided by
    [len(predicted)]; each raises [ZeroDivisionError] exactly when its
    denominator list is empty. *)
Theorem recall_precision_formulas (gold predicted : list string) :
  res_eq (get_recall gold predicted) (recall_spec gold predicted) /\
  res_eq (get_precision gold predicted) (precision_spec gold predicted).
Proof.
  split; [apply get_recall_formula | apply get_precision_formula].
Qed.

(** ** Adjusted gold keywords *)

Lemma adjusted_gold_loop (gold : list string) (text : string) (acc : list string) :
  fold_left (fun adjusted_gold each =>
               if str_in each text then adjusted_gold ++ [each] else adjusted_gold)
            gold acc
  = acc ++ AdjustedGold gold text.
Proof.
  revert acc. induction gold as [|g gold IH]; intros acc; simpl.
  - now rewrite app_nil_r.
  - rewrite IH. destruct (str_in g text); [|reflexivity].
    now rewrite <- app_assoc.
Qed.

Lemma adjusted_gold_of_filter (gold : list string) (text : string) :
  adjusted_gold_of gold text = AdjustedGold gold text.
Proof. unfold adjusted_gold_of. now rewrite adjusted_gold_loop. Qed.

Lemma AdjustedGold_nil (gold : list string) (text : string) :
  (forall g, In g gold -> str_in g text = false) -> AdjustedGold gold text = [].
Proof.
  intros H. induction gold as [|g gold IH]; [reflexivity|]. simpl.
  rewrite (H g (or_introl eq_refl)). apply IH. intros g' Hg'. apply H. now right.
Qed.

Lemma truthy_nonempty (text : string) : text <> "" -> truthy text = true.
Proof. destruct text; [congruence | reflexivity]. Qed.

(** ** C3: an empty adjusted gold set in the two variants *)

(** C3. With [adjust] true, a non-empty [text] and no gold keyword occurring
    in [text], [get_all_scores] of [key_eval.py] yields the base metrics
    paired with an empty adjusted result, and [get_all_scores] of
    [KeyEval.py] yields the base metrics paired with four zeros.  The base
    metrics are those of [get_scores]; when [get_scores] raises, so do both
    variants. *)
Theorem empty_adjusted_gold_variants (gold predicted : list string) (text : string) :
  text <> "" ->
  (forall g, In g gold -> str_in g text = false) ->
  get_all_scores gold predicted text true
  = (metrics <- get_scores gold predicted ;; Ok (metrics, [])) /\
  KeyEval.get_all_scores gold predicted (Some text) true
  = (metrics <- get_scores gold predicted ;; Ok (metrics, [0; 0; 0; 0]%Q)).
Proof.
  intros Ht Hg. unfold get_all_scores, KeyEval.get_all_scores.
  rewrite (truthy_nonempty text Ht), adjusted_gold_of_filter, (AdjustedGold_nil _ _ Hg).
  split; reflexivity.
Qed.

(** The fractions are left as the divisions produce them: [2 # 2] is 1. *)
Lemma empty_adjusted_gold_variants_witness :
  get_all_scores ["deep learning"] ["deep learning"] "neural networks" true
  = Ok ((2 # 2, 1, 1, 2 # 2)%Q, []) /\
  KeyEval.get_all_scores ["deep learning"] ["deep learning"] (Some "neural networks") true
  = Ok ((2 # 2, 1, 1, 2 # 2)%Q, [0; 0; 0; 0]%Q).
Proof.
  destruct (empty_adjusted_gold_variants
              ["deep learning"] ["deep learning"] "neural networks") as [H1 H2].
  - discriminate.
  - intros g [<-|[]]. reflexivity.
  - split.
    + rewrite H1. reflexivity.
    + rewrite H2. reflexivity.
Defined.

(** ** Strings: containment and whitespace tokens *)

Lemma append_empty_r (s : string) : (s ++ "")%string = s.
Proof. induction s as [|c s IH]; simpl; [reflexivity | now rewrite IH]. Qed.

Lemma append_assoc (s1 s2 s3 : string) :
  ((s1 ++ s2) ++ s3)%string = (s1 ++ s2 ++ s3)%string.
Proof. induction s1 as [|c s1 IH]; simpl; [reflexivity | now rewrite IH]. Qed.

Lemma prefix_iff (w s : string) : prefix w s = true <-> exists b, s = (w ++ b)%string.
Proof.
  revert s. induction w as [|c w IH]; intros s.
  - split; [intros _; now exists s | intros _; now destruct s].
  - destruct s as [|d s]; simpl.
    + split; [discriminate | intros [b Hb]; discriminate].
    + destruct (ascii_dec c d) as [->|Hcd].
      * rewrite IH. split; intros [b Hb]; exists b; simpl in *; congruence.
      * split; [discriminate | intros [b Hb]; simpl in Hb; congruence].
Qed.

Lemma str_in_nil (w : string) : str_in w "" = prefix w "".
Proof. cbn [str_in]. now destruct (prefix w ""). Qed.

Lemma str_in_cons (w : string) (d : ascii) (s : string) :
  str_in w (String d s) = prefix w (String d s) || str_in w s.
Proof. cbn [str_in]. now destruct (prefix w (String d s)). Qed.

(** [str_in w s] holds exactly when [w] occurs in [s] as a contiguous run. *)
Lemma str_in_iff (w s : string) : str_in w s = true <-> exists a b, s = (a ++ w ++ b)%string.
Proof.
  induction s as [|d s IH].
  - rewrite str_in_nil, prefix_iff. split.
    + intros [b Hb]. now exists "", b.
    + intros [a [b Hab]]. destruct a; [now exists b | discriminate].
  - rewrite str_in_cons, orb_true_iff, prefix_iff, IH. split.
    + intros [[b Hb] | [a [b Hab]]].
      * now exists "", b.
      * exists (String d a), b. simpl. now rewrite Hab.
    + intros [a [b Hab]]. destruct a as [|d' a].
      * left. now exists b.
      * right. simpl in Hab. injection Hab as _ Hs. now exists a, b.
Qed.

Lemma append_char_nonempty (cur : string) (c : ascii) : (cur ++ String c "")%string <> "".
Proof. destruct cur; discriminate. Qed.

Lemma split_from_nil_iff (s cur : string) :
  split_from s cur = [] <-> cur = "" /\ all_space s = true.
Proof.
  revert cur. induction s as [|c s IH]; intros cur; simpl.
  - destruct cur; split; try discriminate; intuition congruence.
  - destruct (isspace c); simpl.
    + destruct cur.
      * rewrite IH. intuition.
      * split; [discriminate | intros [H _]; discriminate].
    + rewrite IH. split; [intros [H _] | intros [_ H]; discriminate].
      now apply append_char_nonempty in H.
Qed.

(** A string has no token exactly when it is empty or all whitespace. *)
Lemma split_nil_iff (s : string) : split s = [] <-> all_space s = true.
Proof. unfold split. rewrite split_from_nil_iff. intuition. Qed.

(** ** C5 and C10: relaxed R-precision of two phrases *)

Lemma get_Rprecision_truediv (phrase1 phrase2 : string) :
  res_eq (get_Rprecision phrase1 phrase2)
         (truediv (Qnat (List.length (matched_tokens phrase1 phrase2)))
                  (Qnat (token_max phrase1 phrase2))).
Proof.
  unfold get_Rprecision. apply truediv_res_eq.
  rewrite count_loop. unfold matched_tokens. ring.
Qed.

(** *** [split] yields the tokens of the spec *)

Lemma tokens_blank_cons (c : ascii) (s : string) (tokens : list string) :
  isspace c = true -> tokens_of s tokens -> tokens_of (String c s) tokens.
Proof.
  intros Hc H. destruct H as [ws Hws|ws t rest tokens Hws Ht Hn Hr H].
  - apply tokens_none. simpl. now rewrite Hc.
  - change (String c (ws ++ t ++ rest)) with ((String c ws) ++ t ++ rest)%string.
    apply tokens_next; try assumption. simpl. now rewrite Hc.
Qed.

Lemma no_space_append_char (cur : string) (c : ascii) :
  no_space cur = true -> isspace c = false -> no_space (cur ++ String c "") = true.
Proof.
  intros Hn Hc. induction cur as [|d cur IH]; simpl in *.
  - now rewrite Hc.
  - apply andb_true_iff in Hn. destruct Hn as [Hd Hn]. now rewrite Hd, IH.
Qed.

(** The scan of [split]: with no token begun it yields the tokens of what
    is left; with [cur] begun it first completes [cur] with the characters
    up to the next whitespace. *)
Lemma split_from_tokens_of (s : string) :
  tokens_of s (split_from s "") /\
  (forall cur, cur <> "" -> no_space cur = true ->
               exists t rest tokens,
                 s = (t ++ rest)%string /\ no_space t = true /\ starts_blank rest /\
                 split_from s cur = (cur ++ t)%string :: tokens /\
                 tokens_of rest tokens).
Proof.
  induction s as [|c s [IHa IHb]].
  - split.
    + now apply tokens_none.
    + intros cur Hc Hn. exists "", "", []. repeat split.
      * simpl. rewrite append_empty_r. now destruct cur.
      * now apply tokens_none.
  - destruct (isspace c) eqn:Ec.
    + split.
      * cbn [split_from]. rewrite Ec. now apply tokens_blank_cons.
      * intros cur Hc Hn. exists "", (String c s), (split_from s ""). repeat split.
        -- exact Ec.
        -- cbn [split_from]. rewrite Ec, append_empty_r. now destruct cur.
        -- now apply tokens_blank_cons.
    + assert (B : forall cur, no_space cur = true ->
                    exists t rest tokens,
                      t <> "" /\
                      String c s = (t ++ rest)%string /\ no_space t = true /\
                      starts_blank rest /\
                      split_from (String c s) cur = (cur ++ t)%string :: tokens /\
                      tokens_of rest tokens).
      { intros cur Hn.
        destruct (IHb (cur ++ String c "")%string (append_char_nonempty cur c)
                      (no_space_append_char cur c Hn Ec))
          as [t [rest [tokens [Hs [Ht [Hr [Hsp Htok]]]]]]].
        exists (String c t), rest, tokens. repeat split.
        - discriminate.
        - simpl. now rewrite Hs.
        - simpl. now rewrite Ec, Ht.
        - assumption.
        - cbn [split_from]. rewrite Ec, Hsp, append_assoc. reflexivity.
        - assumption. }
      split.
      * destruct (B "" eq_refl) as [t [rest [tokens [Hne [Hs [Ht [Hr [Hsp Htok]]]]]]]].
        cbn [append] in Hsp. rewrite Hsp, Hs.
        change (t ++ rest)%string with ("" ++ t ++ rest)%string.
        apply tokens_next; try assumption. reflexivity.
      * intros cur _ Hn.
        destruct (B cur Hn) as [t [rest [tokens [_ H]]]]. now exists t, rest, tokens.
Qed.

Lemma split_tokens_of (s : string) : tokens_of s (split s).
Proof. apply split_from_tokens_of. Qed.

(** [tokens_of] determines the tokens: a string has one list of tokens. *)
Lemma run_unique (t t' rest rest' : string) :
  no_space t = true -> no_space t' = true -> starts_blank rest -> starts_blank rest' ->
  (t ++ rest)%string = (t' ++ rest')%string -> t = t' /\ rest = rest'.
Proof.
  revert t'. induction t as [|c t IH]; intros t' Ht Ht' Hr Hr' E.
  - destruct t' as [|c' t']; [now split|]. simpl in E. subst rest. simpl in Hr, Ht'.
    rewrite Hr in Ht'. discriminate.
  - destruct t' as [|c' t'].
    + simpl in E. subst rest'. simpl in Hr', Ht. rewrite Hr' in Ht. discriminate.
    + simpl in E. injection E as -> E. simpl in Ht, Ht'.
      apply andb_true_iff in Ht. apply andb_true_iff in Ht'.
      destruct (IH t') as [-> ->]; tauto.
Qed.

Lemma lead_unique (ws ws' t t' rest rest' : string) :
  all_space ws = true -> all_space ws' = true -> t <> "" -> t' <> "" ->
  no_space t = true -> no_space t' = true -> starts_blank rest -> starts_blank rest' ->
  (ws ++ t ++ rest)%string = (ws' ++ t' ++ rest')%string ->
  ws = ws' /\ t = t' /\ rest = rest'.
Proof.
  revert ws'. induction ws as [|c ws IH]; intros ws' Hw Hw' Hn Hn' Ht Ht' Hr Hr' E.
  - destruct ws' as [|c' ws'].
    + destruct (run_unique t t' rest rest'); auto.
    + exfalso. destruct t as [|d t]; [congruence|]. simpl in E. injection E as -> _.
      simpl in Hw', Ht. apply andb_true_iff in Hw'. destruct Hw' as [Hc _].
      rewrite Hc in Ht. discriminate.
  - destruct ws' as [|c' ws'].
    + exfalso. destruct t' as [|d t']; [congruence|]. simpl in E. injection E as -> _.
      simpl in Hw, Ht'. apply andb_true_iff in Hw. destruct Hw as [Hc _].
      rewrite Hc in Ht'. discriminate.
    + simpl in E. injection E as -> E. simpl in Hw, Hw'.
      apply andb_true_iff in Hw. apply andb_true_iff in Hw'.
      destruct (IH ws') as [-> [-> ->]]; tauto.
Qed.

Lemma all_space_no_token (ws t rest : string) :
  all_space (ws ++ t ++ rest) = true -> t <> "" -> no_space t = true -> False.
Proof.
  induction ws as [|c ws IH]; intros H Hn Ht.
  - destruct t as [|d t]; [congruence|]. simpl in H, Ht.
    apply andb_true_iff in H. destruct H as [Hd _]. rewrite Hd in Ht. discriminate.
  - simpl in H. apply andb_true_iff in H. destruct H as [_ H]. now apply IH.
Qed.

Lemma tokens_of_unique (s : string) (tokens tokens' : list string) :
  tokens_of s tokens -> tokens_of s tokens' -> tokens = tokens'.
Proof.
  intros H. revert tokens'.
  induction H as [ws Hw|ws t rest tokens Hw Hn Ht Hr _ IH]; intros tokens' H'.
  - inversion H' as [ws' Hw' E|ws' t' rest' tk' Hw' Hn' Ht' Hr' Hk' E]; [reflexivity|].
    subst. exfalso. now apply (all_space_no_token ws' t' rest').
  - remember (ws ++ t ++ rest)%string as s eqn:Es.
    destruct H' as [ws' Hw'|ws' t' rest' tk' Hw' Hn' Ht' Hr' Hk'].
    + subst. exfalso. now apply (all_space_no_token ws t rest).
    + destruct (lead_unique ws' ws t' t rest' rest) as [_ [-> ->]]; auto.
      f_equal. now apply IH.
Qed.

(** The counting loop of [get_Rprecision] counts the tokens that occur in
    [phrase1]. *)
Lemma matched_tokens_count (phrase1 : string) (tokens : list string) :
  count_of (fun w => occurs_in w phrase1) tokens
           (List.length (filter (fun w => str_in w phrase1) tokens)).
Proof.
  induction tokens as [|w tokens IH]; simpl.
  - constructor.
  - destruct (str_in w phrase1) eqn:E.
    + apply count_yes; [|assumption]. now apply str_in_iff.
    + apply count_no; [|assumption]. intros H. apply str_in_iff in H. congruence.
Qed.

Lemma count_of_unique {A : Type} (P : A -> Prop) (l : list A) (n m : nat) :
  count_of P l n -> count_of P l m -> n = m.
Proof.
  intros Hn. revert m. induction Hn as [|x l n Hx _ IH|x l n Hx _ IH]; intros m Hm;
    inversion Hm; subst; try contradiction; auto.
Qed.

(** C5. [get_Rprecision phrase1 phrase2] is the number of whitespace tokens
    of [phrase2] that occur in [phrase1] as substrings, divided (by Python's
    [/]) by the larger of the two token counts.  The tokens and the count
    are those of the spec's words ([tokens_of], [occurs_in], [count_of]),
    not the code's.  On ["a b c"] and ["a b"] the value is 2/3; on ["abc"]
    and ["b"], and on ["ab cd"] and ["b c"], it is 1, by containment without
    token equality; on ["a b c"] and ["x y"] it is 0, and on ["a b c"] and
    ["a x"] it is 1/3. *)
Theorem get_Rprecision_formula (phrase1 phrase2 : string) :
  (exists tokens1 tokens2 count,
      tokens_of phrase1 tokens1 /\ tokens_of phrase2 tokens2 /\
      count_of (fun w => occurs_in w phrase1) tokens2 count /\
      res_eq (get_Rprecision phrase1 phrase2)
             (truediv (Qnat count)
                      (Qnat (Nat.max (List.length tokens2) (List.length tokens1))))) /\
  res_eq (get_Rprecision "a b c" "a b") (Ok (2 # 3)) /\
  res_eq (get_Rprecision "abc" "b") (Ok 1%Q) /\
  res_eq (get_Rprecision "ab cd" "b c") (Ok 1%Q) /\
  res_eq (get_Rprecision "a b c" "x y") (Ok 0%Q) /\
  res_eq (get_Rprecision "a b c" "a x") (Ok (1 # 3)).
Proof.
  split.
  - exists (split phrase1), (split phrase2),
           (List.length (filter (fun w => str_in w phrase1) (split phrase2))).
    split; [apply split_tokens_of|]. split; [apply split_tokens_of|].
    split; [apply matched_tokens_count | apply get_Rprecision_truediv].
  - repeat split; reflexivity.
Qed.

Lemma token_max_0 (phrase1 phrase2 : string) :
  token_max phrase1 phrase2 = 0%nat <-> split phrase1 = [] /\ split phrase2 = [].
Proof.
  unfold token_max. split.
  - intros H. split.
    + apply length_zero_iff_nil. lia.
    + apply length_zero_iff_nil. lia.
  - intros [-> ->]. reflexivity.
Qed.

Lemma get_Rprecision_raises (phrase1 phrase2 : string) :
  split phrase1 = [] -> split phrase2 = [] ->
  get_Rprecision phrase1 phrase2 = Raise ZeroDivisionError.
Proof. intros H1 H2. unfold get_Rprecision. rewrite H1, H2. reflexivity. Qed.

Lemma get_Rprecision_returns (phrase1 phrase2 : string) :
  token_max phrase1 phrase2 <> 0%nat ->
  exists q, get_Rprecision phrase1 phrase2 = Ok q /\
            (q == Qnat (List.length (matched_tokens phrase1 phrase2))
                  / Qnat (token_max phrase1 phrase2))%Q.
Proof.
  intros H. pose proof (get_Rprecision_truediv phrase1 phrase2) as E.
  destruct (token_max phrase1 phrase2) as [|n] eqn:En; [congruence|].
  rewrite truediv_Qnat_S in E.
  destruct (get_Rprecision phrase1 phrase2) as [q|e]; [|contradiction].
  exists q. split; [reflexivity | exact E].
Qed.

(** C10. [get_Rprecision] raises [ZeroDivisionError] exactly when neither
    phrase has a token; on every other pair it returns a value, and the value
    is 0 when only [phrase2] has no token. *)
Theorem get_Rprecision_zero_division (phrase1 phrase2 : string) :
  (get_Rprecision phrase1 phrase2 = Raise ZeroDivisionError
   <-> split phrase1 = [] /\ split phrase2 = []) /\
  ((exists q, get_Rprecision phrase1 phrase2 = Ok q)
   <-> ~ (split phrase1 = [] /\ split phrase2 = [])) /\
  (split phrase2 = [] -> split phrase1 <> [] ->
   exists q, get_Rprecision phrase1 phrase2 = Ok q /\ (q == 0)%Q).
Proof.
  assert (Hr : ~ (split phrase1 = [] /\ split phrase2 = []) ->
               exists q, get_Rprecision phrase1 phrase2 = Ok q /\
                         (q == Qnat (List.length (matched_tokens phrase1 phrase2))
                               / Qnat (token_max phrase1 phrase2))%Q).
  { intros H. apply get_Rprecision_returns. now rewrite token_max_0. }
  split; [|split].
  - split.
    + intros E. destruct (split phrase1) eqn:E1, (split phrase2) eqn:E2; auto;
        destruct Hr as [q [Hq _]]; try congruence; intros [? ?]; discriminate.
    + intros [H1 H2]. now apply get_Rprecision_raises.
  - split.
    + intros [q Hq] [H1 H2]. rewrite (get_Rprecision_raises _ _ H1 H2) in Hq. discriminate.
    + intros H. destruct (Hr H) as [q [Hq _]]. now exists q.
  - intros H2 H1. destruct Hr as [q [Hq Hv]]; [tauto|].
    exists q. split; [assumption|]. rewrite Hv. unfold matched_tokens. rewrite H2. simpl.
    unfold Qnat at 1. simpl. unfold Qdiv. ring.
Qed.

Lemma get_Rprecision_zero_division_witness :
  get_Rprecision "  " "" = Raise ZeroDivisionError /\
  (exists q, get_Rprecision "deep learning" " " = Ok q /\ (q == 0)%Q).
Proof.
  split.
  - apply (proj1 (get_Rprecision_zero_division "  " "")). split; reflexivity.
  - apply (proj2 (proj2 (get_Rprecision_zero_division "deep learning" " "))).
    + reflexivity.
    + discriminate.
Defined.

(** ** Maxima and sums of scores *)

Lemma max_step_cases (m y : Q) :
  (max_step m y = m /\ (y <= m)%Q) \/ (max_step m y = y /\ (m <= y)%Q).
Proof.
  unfold max_step. destruct (Qle_bool y m) eqn:E.
  - left. split; [reflexivity | now apply Qle_bool_iff].
  - right. split; [reflexivity|]. apply Qlt_le_weak, Qnot_le_lt.
    intros H. apply Qle_bool_iff in H. congruence.
Qed.

Lemma fold_max_is_maximum (l : list Q) (a : Q) :
  is_maximum (fold_left max_step l a) (a :: l).
Proof.
  revert a. induction l as [|y l IH]; intros a; simpl.
  - split; [exists a; split; [now left | reflexivity]|].
    intros y [<-|[]]. apply Qle_refl.
  - destruct (IH (max_step a y)) as [[x [Hx Hxm]] Hub]. split.
    + exists x. split; [|assumption].
      destruct Hx as [Hx|Hx]; [|now right; right].
      destruct (max_step_cases a y) as [[E _]|[E _]]; rewrite E in Hx; subst; simpl; auto.
    + assert (Hs : (max_step a y <= fold_left max_step l (max_step a y))%Q)
        by (apply Hub; now left).
      intros z [<-|[<-|Hz]].
      * eapply Qle_trans; [|exact Hs].
        destruct (max_step_cases a y) as [[E H]|[E H]]; rewrite E; [apply Qle_refl | exact H].
      * eapply Qle_trans; [|exact Hs].
        destruct (max_step_cases a y) as [[E H]|[E H]]; rewrite E; [exact H | apply Qle_refl].
      * apply Hub. now right.
Qed.

Lemma is_maximum_unique (m m' : Q) (l : list Q) :
  is_maximum m l -> is_maximum m' l -> (m == m')%Q.
Proof.
  intros [[x [Hx Hxm]] Hub] [[x' [Hx' Hxm']] Hub'].
  apply Qle_antisym.
  - rewrite <- Hxm. now apply Hub'.
  - rewrite <- Hxm'. now apply Hub.
Qed.

Lemma is_maximum_Qeq (m m' : Q) (l : list Q) :
  (m == m')%Q -> is_maximum m l -> is_maximum m' l.
Proof.
  intros E [[x [Hx Hxm]] Hub]. split.
  - exists x. split; [assumption | now rewrite Hxm].
  - intros y Hy. rewrite <- E. now apply Hub.
Qed.

Lemma Forall2_Qeq_In (l l' : list Q) (x : Q) :
  Forall2 Qeq l l' -> In x l -> exists x', In x' l' /\ (x == x')%Q.
Proof.
  induction 1 as [|a a' l l' Ha _ IH]; intros Hx; [contradiction|].
  destruct Hx as [<-|Hx].
  - exists a'. split; [now left | assumption].
  - destruct (IH Hx) as [x' [Hx' E]]. exists x'. split; [now right | assumption].
Qed.

Lemma Forall2_Qeq_sym (l l' : list Q) : Forall2 Qeq l l' -> Forall2 Qeq l' l.
Proof. induction 1; constructor; [now apply Qeq_sym | assumption]. Qed.

Lemma is_maximum_Forall2 (m : Q) (l l' : list Q) :
  Forall2 Qeq l l' -> is_maximum m l -> is_maximum m l'.
Proof.
  intros F [[x [Hx Hxm]] Hub]. split.
  - destruct (Forall2_Qeq_In _ _ _ F Hx) as [x' [Hx' E]].
    exists x'. split; [assumption | now rewrite <- E].
  - intros y Hy.
    destruct (Forall2_Qeq_In _ _ _ (Forall2_Qeq_sym _ _ F) Hy) as [y' [Hy' E]].
    rewrite E. now apply Hub.
Qed.

Lemma is_maximum_perm (m : Q) (l l' : list Q) :
  Permutation l l' -> is_maximum m l -> is_maximum m l'.
Proof.
  intros P [[x [Hx Hxm]] Hub]. split.
  - exists x. split; [now apply (Permutation_in _ P) | assumption].
  - intros y Hy. apply Hub. now apply (Permutation_in _ (Permutation_sym P)).
Qed.

Lemma Qmax2_cases (a b : Q) :
  (Qmax2 a b = b /\ (a <= b)%Q) \/ (Qmax2 a b = a /\ (b <= a)%Q).
Proof.
  unfold Qmax2. destruct (Qle_bool a b) eqn:E.
  - left. split; [reflexivity | now apply Qle_bool_iff].
  - right. split; [reflexivity|]. apply Qlt_le_weak, Qnot_le_lt.
    intros H. apply Qle_bool_iff in H. congruence.
Qed.

Lemma maximum_is_maximum (l : list Q) : l <> [] -> is_maximum (maximum l) l.
Proof.
  induction l as [|x l IH]; intros Hl; [congruence|].
  destruct l as [|y l].
  - simpl. split; [exists x; split; [now left | reflexivity]|].
    intros z [<-|[]]. apply Qle_refl.
  - destruct IH as [[w [Hw Hwm]] Hub]; [discriminate|].
    change (maximum (x :: y :: l)) with (Qmax2 x (maximum (y :: l))).
    destruct (Qmax2_cases x (maximum (y :: l))) as [[E H]|[E H]]; rewrite E.
    + split; [exists w; split; [now right | assumption]|].
      intros z [<-|Hz]; [assumption | now apply Hub].
    + split; [exists x; split; [now left | reflexivity]|].
      intros z [<-|Hz]; [apply Qle_refl|].
      eapply Qle_trans; [apply Hub, Hz | exact H].
Qed.

Lemma py_max_loop (l : list Q) (x : Q) :
  py_max (x :: l) = Ok (fold_left max_step l x).
Proof. reflexivity. Qed.

Lemma py_max_maximum (vs ws : list Q) :
  vs <> [] -> Forall2 Qeq vs ws ->
  exists m, py_max vs = Ok m /\ (m == maximum ws)%Q.
Proof.
  intros Hv F. destruct vs as [|v vs]; [congruence|].
  exists (fold_left max_step vs v). split; [apply py_max_loop|].
  apply is_maximum_unique with ws.
  - apply is_maximum_Forall2 with (v :: vs); [assumption | apply fold_max_is_maximum].
  - apply maximum_is_maximum. inversion F. discriminate.
Qed.

Lemma py_sum_loop (l : list Q) (a : Q) : (fold_left Qplus l a == a + Qsum l)%Q.
Proof.
  revert a. induction l as [|x l IH]; intros a; simpl.
  - ring.
  - rewrite IH. ring.
Qed.

Lemma py_sum_Qsum (l : list Q) : (py_sum l == Qsum l)%Q.
Proof. unfold py_sum. rewrite py_sum_loop. ring. Qed.

Lemma Qsum_Forall2 (l l' : list Q) : Forall2 Qeq l l' -> (Qsum l == Qsum l')%Q.
Proof.
  induction 1 as [|a a' l l' Ha _ IH]; simpl; [reflexivity|]. now rewrite Ha, IH.
Qed.

Lemma Qsum_perm (l l' : list Q) : Permutation l l' -> (Qsum l == Qsum l')%Q.
Proof.
  induction 1 as [|x l l' _ IH|x y l|l l' l'' _ IH1 _ IH2]; simpl.
  - reflexivity.
  - now rewrite IH.
  - ring.
  - now rewrite IH1.
Qed.

(** ** C6: aggregate R-precision *)

Lemma pair_defined_token_max (phrase1 phrase2 : string) :
  pair_defined phrase1 phrase2 = true <-> token_max phrase1 phrase2 <> 0%nat.
Proof.
  rewrite token_max_0. unfold pair_defined.
  destruct (split phrase1), (split phrase2); simpl; split; intros H;
    try discriminate; try reflexivity; try (intros [? ?]; discriminate).
  exfalso. now apply H.
Qed.

Lemma pair_undefined (phrase1 phrase2 : string) :
  pair_defined phrase1 phrase2 = false -> split phrase1 = [] /\ split phrase2 = [].
Proof.
  unfold pair_defined. destruct (split phrase1), (split phrase2); simpl; intros H;
    try discriminate. now split.
Qed.

(** The inner loop over the predicted phrases. *)
Lemma rscores_loop (gphrase : string) (predicted : list string) :
  if forallb (pair_defined gphrase) predicted
  then exists rscores,
         for_append (fun pphrase => get_Rprecision gphrase pphrase) predicted = Ok rscores /\
         Forall2 Qeq rscores (map (Rprecision_value gphrase) predicted)
  else for_append (fun pphrase => get_Rprecision gphrase pphrase) predicted
       = Raise ZeroDivisionError.
Proof.
  induction predicted as [|p predicted IH]; simpl.
  - exists []. split; [reflexivity | constructor].
  - destruct (pair_defined gphrase p) eqn:Ep; simpl.
    + apply pair_defined_token_max, get_Rprecision_returns in Ep.
      destruct Ep as [q [Hq Hv]]. rewrite Hq. simpl.
      destruct (forallb (pair_defined gphrase) predicted).
      * destruct IH as [rscores [Hr F]]. rewrite Hr. simpl.
        exists (q :: rscores). split; [reflexivity | now constructor].
      * now rewrite IH.
    + apply pair_undefined in Ep. destruct Ep as [H1 H2].
      now rewrite (get_Rprecision_raises _ _ H1 H2).
Qed.

Lemma best_of_spec (gphrase : string) (predicted : list string) :
  predicted <> [] ->
  if forallb (pair_defined gphrase) predicted
  then exists m, best_of predicted gphrase = Ok m /\ (m == best_score predicted gphrase)%Q
  else best_of predicted gphrase = Raise ZeroDivisionError.
Proof.
  intros Hp. unfold best_of. pose proof (rscores_loop gphrase predicted) as H.
  destruct (forallb (pair_defined gphrase) predicted).
  - destruct H as [rscores [Hr F]]. rewrite Hr. simpl.
    apply py_max_maximum; [|assumption].
    intros ->. destruct predicted; [congruence | inversion F].
  - now rewrite H.
Qed.

Lemma scores_loop (gold predicted : list string) :
  predicted <> [] ->
  if forallb (fun g => forallb (pair_defined g) predicted) gold
  then exists scores,
         for_append (best_of predicted) gold = Ok scores /\
         Forall2 Qeq scores (map (best_score predicted) gold)
  else for_append (best_of predicted) gold = Raise ZeroDivisionError.
Proof.
  intros Hp. induction gold as [|g gold IH]; simpl.
  - exists []. split; [reflexivity | constructor].
  - pose proof (best_of_spec g predicted Hp) as Hg.
    destruct (forallb (pair_defined g) predicted); simpl.
    + destruct Hg as [m [Hm Hv]]. rewrite Hm. simpl.
      destruct (forallb (fun g => forallb (pair_defined g) predicted) gold).
      * destruct IH as [scores [Hs F]]. rewrite Hs. simpl.
        exists (m :: scores). split; [reflexivity | now constructor].
      * now rewrite IH.
    + now rewrite Hg.
Qed.

Lemma get_all_Rprecision_loops (gold predicted : list string) :
  get_all_Rprecision gold predicted
  = (scores <- for_append (best_of predicted) gold ;;
     truediv (py_sum scores) (float_of_len scores)).
Proof. reflexivity. Qed.

Lemma get_all_Rprecision_aggregate (gold predicted : list string) :
  res_eq (get_all_Rprecision gold predicted) (aggregate_spec gold predicted).
Proof.
  rewrite get_all_Rprecision_loops.
  destruct gold as [|g gold]; [reflexivity|].
  destruct predicted as [|p predicted]; [reflexivity|].
  pose proof (scores_loop (g :: gold) (p :: predicted) ltac:(discriminate)) as H.
  unfold aggregate_spec.
  destruct (forallb (fun g0 => forallb (pair_defined g0) (p :: predicted)) (g :: gold)).
  - destruct H as [scores [Hs F]]. rewrite Hs. cbn [bind].
    pose proof (Forall2_length F) as Hl. rewrite length_map in Hl.
    unfold float_of_len. change (inject_Z (Z.of_nat (List.length scores)))
      with (Qnat (List.length scores)).
    rewrite Hl. cbn [List.length]. rewrite truediv_Qnat_S. cbn [res_eq].
    unfold average. rewrite length_map. cbn [List.length].
    now rewrite py_sum_Qsum, (Qsum_Forall2 _ _ F).
  - rewrite H. reflexivity.
Qed.

(** C6. [get_all_Rprecision gold predicted] is the average over the gold
    phrases of the maximum of [get_Rprecision] against every predicted
    phrase; it raises [ZeroDivisionError] on an empty [gold], and
    [ValueError] on an empty [predicted] with a non-empty [gold]. *)
Theorem get_all_Rprecision_average_of_maxima (gold predicted : list string) :
  res_eq (get_all_Rprecision gold predicted) (aggregate_spec gold predicted) /\
  get_all_Rprecision [] predicted = Raise ZeroDivisionError /\
  (gold <> [] -> get_all_Rprecision gold [] = Raise ValueError) /\
  (gold <> [] -> predicted <> [] ->
   (forall g p, In g gold -> In p predicted -> pair_defined g p = true) ->
   res_eq (get_all_Rprecision gold predicted)
          (Ok (average (map (fun g => maximum (map (Rprecision_value g) predicted)) gold)))).
Proof.
  split; [apply get_all_Rprecision_aggregate|]. split; [reflexivity|]. split.
  - intros Hg. destruct gold; [congruence | reflexivity].
  - intros Hg Hp Hd.
    eapply res_eq_trans; [apply get_all_Rprecision_aggregate|].
    destruct gold as [|g gold]; [congruence|]. destruct predicted as [|p predicted]; [congruence|].
    unfold aggregate_spec.
    replace (forallb (fun g0 => forallb (pair_defined g0) (p :: predicted)) (g :: gold)) with true.
    + apply res_eq_refl.
    + symmetry. apply forallb_forall. intros g' Hg'. apply forallb_forall. intros p' Hp'.
      now apply Hd.
Qed.

Lemma get_all_Rprecision_average_of_maxima_witness :
  get_all_Rprecision ["a b c"; "d"] [] = Raise ValueError /\
  res_eq (get_all_Rprecision ["a b c"; "d"] ["a b"; "d e"]) (Ok (7 # 12)).
Proof.
  split.
  - apply (proj1 (proj2 (proj2 (get_all_Rprecision_average_of_maxima ["a b c"; "d"] [])))).
    discriminate.
  - eapply res_eq_trans.
    + apply (proj2 (proj2 (proj2
               (get_all_Rprecision_average_of_maxima ["a b c"; "d"] ["a b"; "d e"])))).
      * discriminate.
      * discriminate.
      * intros g p [<-|[<-|[]]] [<-|[<-|[]]]; reflexivity.
    + reflexivity.
Defined.

(** ** C9: the aggregate does not depend on the order of either list *)

Lemma forallb_perm {A : Type} (f : A -> bool) (l l' : list A) :
  Permutation l l' -> forallb f l = forallb f l'.
Proof.
  induction 1 as [|x l l' _ IH|x y l|l l' l'' _ IH1 _ IH2]; simpl.
  - reflexivity.
  - now rewrite IH.
  - now destruct (f x), (f y).
  - now rewrite IH1.
Qed.

Lemma forallb_pointwise {A : Type} (f f' : A -> bool) (l : list A) :
  (forall x, f x = f' x) -> forallb f l = forallb f' l.
Proof. intros E. induction l as [|x l IH]; simpl; [reflexivity | now rewrite E, IH]. Qed.

Lemma maximum_perm (l l' : list Q) :
  l <> [] -> Permutation l l' -> (maximum l == maximum l')%Q.
Proof.
  intros Hl P. apply is_maximum_unique with l'.
  - apply is_maximum_perm with l; [assumption | now apply maximum_is_maximum].
  - apply maximum_is_maximum. intros ->. apply Permutation_sym, Permutation_nil in P.
    contradiction.
Qed.

Lemma best_score_perm (predicted predicted' : list string) (gphrase : string) :
  predicted <> [] -> Permutation predicted predicted' ->
  (best_score predicted gphrase == best_score predicted' gphrase)%Q.
Proof.
  intros Hp P. unfold best_score. apply maximum_perm.
  - destruct predicted; [congruence | discriminate].
  - now apply Permutation_map.
Qed.

Lemma Forall2_map_pointwise {A : Type} (f f' : A -> Q) (l : list A) :
  (forall x, (f x == f' x)%Q) -> Forall2 Qeq (map f l) (map f' l).
Proof. intros E. induction l as [|x l IH]; simpl; now constructor. Qed.

Lemma average_perm (gold gold' predicted predicted' : list string) :
  predicted <> [] -> Permutation gold gold' -> Permutation predicted predicted' ->
  (average (map (best_score predicted) gold) == average (map (best_score predicted') gold'))%Q.
Proof.
  intros Hp Pg Pp. unfold average. rewrite !length_map, (Permutation_length Pg).
  rewrite (Qsum_perm _ _ (Permutation_map (best_score predicted) Pg)).
  rewrite (Qsum_Forall2 _ _ (Forall2_map_pointwise (best_score predicted)
                                                  (best_score predicted') gold'
                                                  (fun g => best_score_perm _ _ g Hp Pp))).
  reflexivity.
Qed.

Lemma aggregate_spec_perm (gold gold' predicted predicted' : list string) :
  Permutation gold gold' -> Permutation predicted predicted' ->
  res_eq (aggregate_spec gold predicted) (aggregate_spec gold' predicted').
Proof.
  intros Pg Pp.
  destruct gold as [|g gold].
  { apply Permutation_nil in Pg. subst. reflexivity. }
  destruct gold' as [|g' gold'].
  { apply Permutation_sym, Permutation_nil in Pg. discriminate. }
  destruct predicted as [|p predicted].
  { apply Permutation_nil in Pp. subst. reflexivity. }
  destruct predicted' as [|p' predicted'].
  { apply Permutation_sym, Permutation_nil in Pp. discriminate. }
  unfold aggregate_spec.
  rewrite (forallb_perm _ _ _ Pg).
  rewrite (forallb_pointwise _ (fun g0 => forallb (pair_defined g0) (p' :: predicted')) (g' :: gold')
                             (fun g0 => forallb_perm (pair_defined g0) _ _ Pp)).
  destruct (forallb (fun g0 => forallb (pair_defined g0) (p' :: predicted')) (g' :: gold')).
  - cbn [res_eq]. apply average_perm; [discriminate | assumption | assumption].
  - reflexivity.
Qed.

Lemma get_all_Rprecision_perm (gold gold' predicted predicted' : list string) :
  Permutation gold gold' -> Permutation predicted predicted' ->
  res_eq (get_all_Rprecision gold predicted) (get_all_Rprecision gold' predicted').
Proof.
  intros Pg Pp.
  eapply res_eq_trans; [apply get_all_Rprecision_aggregate|].
  eapply res_eq_trans; [apply (aggregate_spec_perm _ _ _ _ Pg Pp)|].
  apply res_eq_sym, get_all_Rprecision_aggregate.
Qed.








(** ** When [get_scores] returns *)

Lemma get_recall_cons (g : string) (gold predicted : list string) :
  exists q, get_recall (g :: gold) predicted = Ok q.
Proof.
  unfold get_recall, float_of_len.
  change (inject_Z (Z.of_nat (List.length (g :: gold)))) with (Qnat (S (List.length gold))).
  rewrite truediv_Qnat_S. eexists. reflexivity.
Qed.

Lemma get_precision_cons (gold : list string) (p : string) (predicted : list string) :
  exists q, get_precision gold (p :: predicted) = Ok q.
Proof.
  unfold get_precision, float_of_len.
  change (inject_Z (Z.of_nat (List.length (p :: predicted))))
    with (Qnat (S (List.length predicted))).
  rewrite truediv_Qnat_S. eexists. reflexivity.
Qed.

(** [get_f1] never divides by zero. *)
Lemma get_f1_returns (r p : Q) : exists q, get_f1 r p = Ok q.
Proof.
  unfold get_f1. destruct (Qeq_bool (r + p) 0) eqn:E; [eexists; reflexivity|].
  unfold truediv. destruct (Qeq_bool (p + r) 0) eqn:E'; [|eexists; reflexivity].
  apply Qeq_bool_eq in E'. rewrite Qplus_comm in E'. apply Qeq_eq_bool in E'. congruence.
Qed.

Lemma get_all_Rprecision_returns (gold predicted : list string) :
  gold <> [] -> predicted <> [] -> all_pairs_defined gold predicted = true ->
  exists q, get_all_Rprecision gold predicted = Ok q.
Proof.
  intros Hg Hp Hd. pose proof (get_all_Rprecision_aggregate gold predicted) as H.
  destruct gold; [congruence|]. destruct predicted; [congruence|].
  unfold aggregate_spec in H. unfold all_pairs_defined in Hd. rewrite Hd in H.
  destruct (get_all_Rprecision _ _) as [q|e]; [|contradiction].
  now exists q.
Qed.

Lemma get_all_Rprecision_defined (gold predicted : list string) (q : Q) :
  get_all_Rprecision gold predicted = Ok q ->
  gold <> [] /\ predicted <> [] /\ all_pairs_defined gold predicted = true.
Proof.
  intros E. pose proof (get_all_Rprecision_aggregate gold predicted) as H.
  rewrite E in H. unfold aggregate_spec in H.
  destruct gold; [contradiction|]. destruct predicted; [contradiction|].
  unfold all_pairs_defined.
  destruct (forallb _ _); [|contradiction].
  repeat split; discriminate.
Qed.

Lemma get_scores_returns (gold predicted : list string) :
  gold <> [] -> predicted <> [] -> all_pairs_defined gold predicted = true ->
  exists m, get_scores gold predicted = Ok m.
Proof.
  intros Hg Hp Hd. unfold get_scores.
  destruct (get_all_Rprecision_returns gold predicted Hg Hp Hd) as [rp Hrp].
  destruct gold as [|g gold]; [congruence|]. destruct predicted as [|p predicted]; [congruence|].
  destruct (get_recall_cons g gold (p :: predicted)) as [r Hr].
  destruct (get_precision_cons (g :: gold) p predicted) as [pr Hpr].
  destruct (get_f1_returns r pr) as [f Hf].
  rewrite Hr, Hpr. cbn [bind]. rewrite Hf, Hrp. cbn [bind]. eexists. reflexivity.
Qed.

Lemma get_scores_defined (gold predicted : list string) (m : ScoreTuple) :
  get_scores gold predicted = Ok m ->
  gold <> [] /\ predicted <> [] /\ all_pairs_defined gold predicted = true.
Proof.
  unfold get_scores. intros E.
  destruct (get_recall gold predicted) as [r|]; [cbn [bind] in E | discriminate].
  destruct (get_precision gold predicted) as [pr|]; [cbn [bind] in E | discriminate].
  destruct (get_f1 r pr) as [f|]; [cbn [bind] in E | discriminate].
  destruct (get_all_Rprecision gold predicted) as [rp|] eqn:Erp; [|discriminate].
  now apply get_all_Rprecision_defined with rp.
Qed.

Lemma all_pairs_defined_filter (test : string -> bool) (gold predicted : list string) :
  all_pairs_defined gold predicted = true ->
  all_pairs_defined (filter test gold) predicted = true.
Proof.
  unfold all_pairs_defined. rewrite !forallb_forall. intros H g Hg.
  apply H. apply filter_In in Hg. tauto.
Qed.

(** ** C8: the two components of [get_all_scores] *)

Lemma get_all_scores_base (gold predicted : list string) (text : string) (adjust : bool) :
  fst_result (get_all_scores gold predicted text adjust) = get_scores gold predicted.
Proof.
  unfold get_all_scores, fst_result.
  destruct (get_scores gold predicted) as [m|e] eqn:Em; [cbn [bind] | reflexivity].
  destruct adjust; [|reflexivity]. destruct (truthy text); [|reflexivity].
  rewrite adjusted_gold_of_filter.
  destruct (List.length (AdjustedGold gold text) <? 1)%nat eqn:El; [reflexivity|].
  destruct (get_scores_defined _ _ _ Em) as [_ [Hp Hd]].
  destruct (get_scores_returns (AdjustedGold gold text) predicted) as [a Ha].
  - intros E. rewrite E in El. discriminate.
  - assumption.
  - now apply all_pairs_defined_filter.
  - rewrite Ha. reflexivity.
Qed.

Lemma get_all_scores_adjusted (gold predicted : list string) (text : string) :
  text <> "" -> AdjustedGold gold text <> [] ->
  get_all_scores gold predicted text true
  = (metrics <- get_scores gold predicted ;;
     adjusted_metrics <- get_scores (AdjustedGold gold text) predicted ;;
     Ok (metrics, seq_of adjusted_metrics)).
Proof.
  intros Ht Ha. unfold get_all_scores.
  rewrite (truthy_nonempty text Ht), adjusted_gold_of_filter.
  destruct (AdjustedGold gold text); [congruence | reflexivity].
Qed.

(** C8, as the code has it.  The first component of [get_all_scores] is the
    outcome of [get_scores gold predicted], whatever [text] and [adjust]
    are.  With [adjust] true, a non-empty [text] and a non-empty
    AdjustedGold, the adjusted component is [get_scores] recomputed against
    AdjustedGold, the gold phrases contained in [text], in their order. *)
Theorem get_all_scores_components (gold predicted : list string) (text : string) (adjust : bool) :
  fst_result (get_all_scores gold predicted text adjust) = get_scores gold predicted /\
  (text <> "" -> AdjustedGold gold text <> [] ->
   get_all_scores gold predicted text true
   = (metrics <- get_scores gold predicted ;;
      adjusted_metrics <- get_scores (AdjustedGold gold text) predicted ;;
      Ok (metrics, seq_of adjusted_metrics))).
Proof.
  split; [apply get_all_scores_base | apply get_all_scores_adjusted].
Qed.

Lemma get_all_scores_components_witness :
  get_all_scores ["neural networks"; "deep learning"] ["neural networks"; "optimization"]
                 "we use neural networks" true
  = (metrics <- get_scores ["neural networks"; "deep learning"]
                           ["neural networks"; "optimization"] ;;
     adjusted_metrics <- get_scores ["neural networks"] ["neural networks"; "optimization"] ;;
     Ok (metrics, seq_of adjusted_metrics)).
Proof.
  apply (proj2 (get_all_scores_components
                  ["neural networks"; "deep learning"] ["neural networks"; "optimization"]
                  "we use neural networks" true)).
  - discriminate.
  - discriminate.
Defined.

(** C8 as stated fails when no gold phrase is contained in the text: the
    adjusted component is then empty, while [get_scores] against the empty
    AdjustedGold raises. *)
Lemma get_all_scores_empty_adjusted_gold :
  AdjustedGold ["deep learning"] "neural networks" = [] /\
  get_all_scores ["deep learning"] ["deep learning"] "neural networks" true
  = Ok ((2 # 2, 1, 1, 2 # 2)%Q, []) /\
  get_scores (AdjustedGold ["deep learning"] "neural networks") ["deep learning"]
  = Raise ZeroDivisionError /\
  get_all_scores ["deep learning"] ["deep learning"] "neural networks" true
  <> (metrics <- get_scores ["deep learning"] ["deep learning"] ;;
      adjusted_metrics <- get_scores (AdjustedGold ["deep learning"] "neural networks")
                                     ["deep learning"] ;;
      Ok (metrics, seq_of adjusted_metrics)).
Proof.
  repeat split; try reflexivity. vm_compute. discriminate.
Qed.

(** ** Splitting on a separator *)

Lemma length_append (s1 s2 : string) :
  String.length (s1 ++ s2) = (String.length s1 + String.length s2)%nat.
Proof. induction s1 as [|c s1 IH]; simpl; [reflexivity | now rewrite IH]. Qed.

(** A string without the separator is a single field. *)
Lemma split_scan_absent (sep s cur : string) :
  str_in sep s = false -> split_scan sep s 0 cur = [(cur ++ s)%string].
Proof.
  revert cur. induction s as [|c s IH]; intros cur H.
  - simpl. now rewrite append_empty_r.
  - rewrite str_in_cons in H. apply orb_false_iff in H. destruct H as [Hp Hs].
    cbn [split_scan]. rewrite Hp, (IH _ Hs), append_assoc. reflexivity.
Qed.

Lemma split_on_absent (sep s : string) : str_in sep s = false -> split_on sep s = [s].
Proof. intros H. unfold split_on. now rewrite split_scan_absent. Qed.

(** Passing over the rest of an occurrence. *)
Lemma split_scan_skip (sep w s cur : string) :
  split_scan sep (w ++ s) (String.length w) cur = split_scan sep s 0 cur.
Proof. induction w as [|c w IH]; [reflexivity | exact IH]. Qed.

Lemma join_cons (sep f g : string) (fields : list string) :
  join sep (f :: g :: fields) = (f ++ sep ++ join sep (g :: fields))%string.
Proof. reflexivity. Qed.

Lemma split_scan_cons (sep s : string) (k : nat) (cur : string) :
  exists f fields, split_scan sep s k cur = f :: fields.
Proof.
  revert k cur. induction s as [|c s IH]; intros k cur; cbn [split_scan].
  - now exists cur, [].
  - destruct k as [|k]; [|apply IH].
    destruct (prefix sep (String c s)); [do 2 eexists; reflexivity | apply IH].
Qed.

(** Joining the fields with the separator gives the string back: the scan
    loses no character and cuts only at occurrences of the separator. *)
Lemma join_split_scan (sep : string) (n : nat) :
  sep <> "" ->
  forall s cur, (String.length s <= n)%nat ->
                join sep (split_scan sep s 0 cur) = (cur ++ s)%string.
Proof.
  intros Hsep. induction n as [|n IH]; intros s cur Hn.
  - destruct s; [|simpl in Hn; lia]. simpl. now rewrite append_empty_r.
  - destruct s as [|c s]; [simpl; now rewrite append_empty_r|].
    cbn [split_scan]. destruct (prefix sep (String c s)) eqn:Ep.
    + apply prefix_iff in Ep. destruct Ep as [rest Hrest].
      destruct sep as [|d w]; [congruence|]. simpl in Hrest.
      injection Hrest as Hc Hs. subst c s.
      replace (String.length (String d w) - 1)%nat with (String.length w) by (simpl; lia).
      rewrite split_scan_skip.
      destruct (split_scan_cons (String d w) rest 0 "") as [f [fields Ef]].
      assert (Hj : join (String d w) (split_scan (String d w) rest 0 "") = rest).
      { change rest with (("" ++ rest)%string) at 2. apply IH.
        simpl in Hn. rewrite length_append in Hn. lia. }
      rewrite Ef, join_cons, <- Ef, Hj. reflexivity.
    + rewrite IH by (simpl in Hn; lia). now rewrite append_assoc.
Qed.

Lemma join_split_on (sep s : string) : sep <> "" -> join sep (split_on sep s) = s.
Proof.
  intros Hsep. unfold split_on.
  now rewrite (join_split_scan sep (String.length s) Hsep s "" (Nat.le_refl _)).
Qed.

(** ** C7: the keyword parser *)

Lemma extend_new_split (clean : string -> string) (new : list string) (key : string) :
  extend_new clean new key = new ++ map clean (split_on "---" key).
Proof.
  unfold extend_new. destruct (str_in "---" key) eqn:E; [reflexivity|].
  now rewrite (split_on_absent _ _ E).
Qed.

Lemma fold_extend_new (clean : string -> string) (fragments new : list string) :
  fold_left (extend_new clean) fragments new = new ++ normalized_fields clean fragments.
Proof.
  revert new. induction fragments as [|key fragments IH]; intros new; simpl.
  - now rewrite app_nil_r.
  - now rewrite IH, extend_new_split, <- app_assoc.
Qed.

Lemma process_keyword_fields (clean : string -> string) (raw : string) :
  process_keyword clean raw = normalized_fields clean (split_on (delimiter raw) raw).
Proof.
  unfold process_keyword, delimiter. rewrite fold_extend_new. cbn [app find].
  destruct (str_in ";" raw); [reflexivity|].
  destruct (str_in "," raw); [reflexivity|].
  destruct (str_in tab raw); reflexivity.
Qed.

(** The parser of [KeyEval.py] has no tab step: it agrees with the one of
    [key_eval.py] on every field where a semicolon or a comma occurs or no
    tab does. *)
Lemma KeyEval_process_keyword_agrees (clean : string -> string) (raw : string) :
  str_in ";" raw || str_in "," raw || negb (str_in tab raw) = true ->
  KeyEval.process_keyword clean raw = process_keyword clean raw.
Proof.
  unfold KeyEval.process_keyword, process_keyword.
  destruct (str_in ";" raw); [reflexivity|].
  destruct (str_in "," raw); [reflexivity|].
  destruct (str_in tab raw); [discriminate | reflexivity].
Qed.

Lemma KeyEval_process_keyword_tab (clean : string -> string) :
  KeyEval.process_keyword clean (String "a" (String (ascii_of_nat 9) "b"))
  = [clean (String "a" (String (ascii_of_nat 9) "b"))] /\
  process_keyword clean (String "a" (String (ascii_of_nat 9) "b")) = [clean "a"; clean "b"].
Proof. split; reflexivity. Qed.

Lemma KeyEval_process_keyword_fields (clean : string -> string) (raw : string) :
  KeyEval.process_keyword clean raw
  = normalized_fields clean (split_on (KeyEval_delimiter raw) raw).
Proof.
  unfold KeyEval.process_keyword, KeyEval_delimiter. rewrite fold_extend_new. cbn [app find].
  destruct (str_in ";" raw); [reflexivity|].
  destruct (str_in "," raw); reflexivity.
Qed.

(** C7, as the code has it.  The parser of [key_eval.py] splits a raw field
    on the first of semicolon, comma and tab that occurs in it, on [" to"]
    when none does; the parser of [KeyEval.py] does the same without the tab
    step.  Both then split every fragment on ["---"] and pass every part
    through [clean], in order.  In both, ["a;b;c"] gives [clean] of [a],
    [b], [c], and ["a---b,c"] gives [clean] of [a], [b], [c]. *)
Theorem keyword_parsers_priority_order (clean : string -> string) (raw : string) :
  process_keyword clean raw
  = flat_map (fun fragment => map clean (split_on "---" fragment))
             (split_on (delimiter raw) raw) /\
  KeyEval.process_keyword clean raw
  = flat_map (fun fragment => map clean (split_on "---" fragment))
             (split_on (KeyEval_delimiter raw) raw) /\
  process_keyword clean "a;b;c" = map clean ["a"; "b"; "c"] /\
  process_keyword clean "a---b,c" = [clean "a"; clean "b"; clean "c"] /\
  KeyEval.process_keyword clean "a;b;c" = map clean ["a"; "b"; "c"] /\
  KeyEval.process_keyword clean "a---b,c" = [clean "a"; clean "b"; clean "c"].
Proof.
  split; [apply process_keyword_fields|].
  split; [apply KeyEval_process_keyword_fields|].
  repeat split; reflexivity.
Qed.

(** C7 as stated fails for the parser of [KeyEval.py]: a field whose only
    delimiter is a tab is not split there, while [key_eval.py] splits it. *)
Lemma KeyEval_parser_keeps_tab :
  str_in ";" (String "a" (String (ascii_of_nat 9) "b")) = false /\
  str_in "," (String "a" (String (ascii_of_nat 9) "b")) = false /\
  str_in tab (String "a" (String (ascii_of_nat 9) "b")) = true /\
  KeyEval.process_keyword (fun s => s) (String "a" (String (ascii_of_nat 9) "b"))
  = [String "a" (String (ascii_of_nat 9) "b")] /\
  process_keyword (fun s => s) (String "a" (String (ascii_of_nat 9) "b")) = ["a"; "b"].
Proof. repeat split; reflexivity. Qed.

(** ** C2: the range of the four scores *)

Lemma in_unit_Qeq (q q' : Q) : (q == q')%Q -> in_unit q' -> in_unit q.
Proof. intros E [H0 H1]. split; now rewrite E. Qed.

Lemma Qnat_ratio_unit (k n : nat) :
  (k <= n)%nat -> (0 < n)%nat -> in_unit (Qnat k / Qnat n).
Proof.
  intros Hk Hn. split.
  - apply Qle_shift_div_l; [now apply Qnat_pos|]. rewrite Qmult_0_l. apply Qnat_nonneg.
  - apply Qle_shift_div_r; [now apply Qnat_pos|]. rewrite Qmult_1_l. now apply Qnat_le.
Qed.

Lemma overlap_count_le_predicted (gold predicted : list string) :
  (overlap_count gold predicted <= List.length predicted)%nat.
Proof. unfold overlap_count. apply filter_length_le. Qed.

(** Without repeated predictions the overlap cannot exceed the gold list. *)
Lemma overlap_count_le_gold (gold predicted : list string) :
  NoDup predicted -> (overlap_count gold predicted <= List.length gold)%nat.
Proof.
  intros Hn. unfold overlap_count. apply NoDup_incl_length.
  - now apply NoDup_filter.
  - intros x Hx. apply filter_In in Hx. destruct Hx as [_ Hx].
    now destruct (in_dec string_dec x gold).
Qed.

Lemma Rprecision_value_unit (phrase1 phrase2 : string) :
  pair_defined phrase1 phrase2 = true -> in_unit (Rprecision_value phrase1 phrase2).
Proof.
  intros H. apply pair_defined_token_max in H. unfold Rprecision_value.
  apply Qnat_ratio_unit; [|lia].
  unfold matched_tokens, token_max.
  pose proof (filter_length_le (fun w => str_in w phrase1) (split phrase2)). lia.
Qed.

Lemma maximum_unit (l : list Q) :
  l <> [] -> (forall x, In x l -> in_unit x) -> in_unit (maximum l).
Proof.
  intros Hl H. destruct (maximum_is_maximum l Hl) as [[x [Hx E]] _].
  apply in_unit_Qeq with x; [now apply Qeq_sym | now apply H].
Qed.

Lemma Qsum_bounds (l : list Q) :
  (forall x, In x l -> in_unit x) -> (0 <= Qsum l)%Q /\ (Qsum l <= Qnat (List.length l))%Q.
Proof.
  induction l as [|x l IH]; intros H.
  - simpl. split; [apply Qle_refl | unfold Qnat; simpl; apply Qle_refl].
  - destruct (H x (or_introl eq_refl)) as [H0 H1].
    destruct IH as [I0 I1]; [intros y Hy; apply H; now right|].
    cbn [Qsum fold_right List.length]. fold (Qsum l). split.
    + rewrite <- (Qplus_0_l 0). now apply Qplus_le_compat.
    + rewrite Qnat_S, (Qplus_comm (Qnat (List.length l)) 1). now apply Qplus_le_compat.
Qed.

Lemma average_unit (l : list Q) :
  l <> [] -> (forall x, In x l -> in_unit x) -> in_unit (average l).
Proof.
  intros Hl H. destruct (Qsum_bounds l H) as [H0 H1].
  assert (Hp : (0 < Qnat (List.length l))%Q).
  { apply Qnat_pos. destruct l; [congruence | simpl; lia]. }
  unfold average. split.
  - apply Qle_shift_div_l; [assumption|]. now rewrite Qmult_0_l.
  - apply Qle_shift_div_r; [assumption|]. now rewrite Qmult_1_l.
Qed.

Lemma aggregate_unit (gold predicted : list string) :
  gold <> [] -> predicted <> [] -> all_pairs_defined gold predicted = true ->
  in_unit (average (map (best_score predicted) gold)).
Proof.
  intros Hg Hp Hd. apply average_unit.
  - destruct gold; [congruence | discriminate].
  - intros x Hx. apply in_map_iff in Hx. destruct Hx as [g [<- Hg']].
    unfold best_score. apply maximum_unit.
    + destruct predicted; [congruence | discriminate].
    + intros y Hy. apply in_map_iff in Hy. destruct Hy as [p [<- Hp']].
      apply Rprecision_value_unit.
      unfold all_pairs_defined in Hd. rewrite forallb_forall in Hd.
      specialize (Hd g Hg'). rewrite forallb_forall in Hd. now apply Hd.
Qed.

Lemma get_f1_unit (r p f1 : Q) :
  in_unit r -> in_unit p -> get_f1 r p = Ok f1 -> in_unit f1.
Proof.
  intros [Hr0 Hr1] [Hp0 Hp1]. unfold get_f1.
  destruct (Qeq_bool (r + p) 0) eqn:E.
  - intros [= <-]. split; [apply Qle_refl | discriminate].
  - unfold truediv. destruct (Qeq_bool (p + r) 0) eqn:E'; [discriminate|].
    intros [= <-].
    assert (Hs : (0 < p + r)%Q).
    { assert (H0 : (0 <= p + r)%Q).
      { rewrite <- (Qplus_0_l 0). now apply Qplus_le_compat. }
      apply Qle_lteq in H0. destruct H0 as [H0|H0]; [assumption|].
      apply Qeq_bool_neq in E'. exfalso. apply E'. now apply Qeq_sym. }
    split.
    + apply Qle_shift_div_l; [assumption|]. rewrite Qmult_0_l.
      apply Qmult_le_0_compat; [|assumption].
      apply Qmult_le_0_compat; [discriminate | assumption].
    + apply Qle_shift_div_r; [assumption|]. rewrite Qmult_1_l.
      assert (H1 : (p * r <= p)%Q).
      { rewrite <- (Qmult_1_r p) at 2. rewrite !(Qmult_comm p).
        now apply Qmult_le_compat_r. }
      assert (H2 : (p * r <= r)%Q).
      { rewrite <- (Qmult_1_l r) at 2. now apply Qmult_le_compat_r. }
      setoid_replace (2 * p * r)%Q with (p * r + p * r)%Q by ring.
      now apply Qplus_le_compat.
Qed.

(** What does hold of the range: with no repeated prediction, the four
    scores that [get_scores] returns lie between 0 and 1. *)
Lemma get_scores_unit_without_duplicates
      (gold predicted : list string) (f1 recall precision Rprecision : Q) :
  NoDup predicted ->
  get_scores gold predicted = Ok (f1, recall, precision, Rprecision) ->
  in_unit f1 /\ in_unit recall /\ in_unit precision /\ in_unit Rprecision.
Proof.
  intros Hn E. destruct (get_scores_defined _ _ _ E) as [Hg [Hp Hd]].
  unfold get_scores in E.
  pose proof (get_recall_formula gold predicted) as Fr.
  pose proof (get_precision_formula gold predicted) as Fp.
  pose proof (get_all_Rprecision_aggregate gold predicted) as Fa.
  destruct (get_recall gold predicted) as [r|]; [cbn [bind] in E | discriminate].
  destruct (get_precision gold predicted) as [p|]; [cbn [bind] in E | discriminate].
  destruct (get_f1 r p) as [f|] eqn:Ef; [cbn [bind] in E | discriminate].
  destruct (get_all_Rprecision gold predicted) as [rp|]; [cbn [bind] in E | discriminate].
  injection E as <- <- <- <-.
  destruct gold as [|g gold]; [congruence|]. destruct predicted as [|p0 predicted]; [congruence|].
  unfold recall_spec in Fr. unfold precision_spec in Fp. unfold aggregate_spec in Fa.
  unfold all_pairs_defined in Hd. rewrite Hd in Fa. cbn [res_eq] in Fr, Fp, Fa.
  assert (Ur : in_unit r).
  { apply in_unit_Qeq with (1 := Fr). apply Qnat_ratio_unit.
    - now apply overlap_count_le_gold.
    - simpl; lia. }
  assert (Up : in_unit p).
  { apply in_unit_Qeq with (1 := Fp). apply Qnat_ratio_unit.
    - apply overlap_count_le_predicted.
    - simpl; lia. }
  repeat split; try apply Ur; try apply Up.
  - now apply (get_f1_unit r p f Ur Up Ef).
  - now apply (get_f1_unit r p f Ur Up Ef).
  - apply in_unit_Qeq with (1 := Fa). now apply aggregate_unit.
  - apply in_unit_Qeq with (1 := Fa). now apply aggregate_unit.
Qed.

(** C2 fails on the code.  With gold [["a"]] and predicted [["a"; "a"]], both
    non-empty, [get_scores] returns a recall of 2 and an f1 of 4/3: the loop
    of [get_recall] runs over [l2] and counts the repeated prediction twice,
    where its docstring describes a proportion of the elements of [l1]
    (which is 1 here). *)
Theorem get_scores_duplicated_prediction :
  exists f1 recall precision Rprecision,
    get_scores ["a"] ["a"; "a"] = Ok (f1, recall, precision, Rprecision) /\
    (recall == 2)%Q /\ (f1 == 4 # 3)%Q /\ (precision == 1)%Q /\ (Rprecision == 1)%Q /\
    ~ in_unit recall /\ ~ in_unit f1 /\
    (recall_docstring ["a"] ["a"; "a"] == 1)%Q.
Proof.
  do 4 eexists. split; [reflexivity|].
  repeat split; try reflexivity; intros [_ H]; now apply H.
Qed.

(** ** C4: exceptions in the per-document loop *)

Lemma score_document_scored (gold predicted : list string) (rest : list (list string))
      (abstract : string) :
  score_document gold (predicted :: rest) abstract = scored gold predicted abstract.
Proof.
  unfold score_document, scored. cbn [item0 bind].
  now destruct (get_all_scores gold predicted abstract true) as [[metrics adjusted]|e].
Qed.

Lemma eval_file_loop_rows (model : KeyModel) (top_n : nat) (docs : list (list string * string)) :
  (forall doc, In doc docs ->
               exists predicted rest, get_keywords model (snd doc) top_n = Ok (predicted :: rest)) ->
  forall st0, exists rows,
    eval_file_loop model top_n st0 docs
    = Ok {| all_scores := all_scores st0 ++ map (fun row => fst (row_scores row)) rows;
            all_scores_adjust :=
              all_scores_adjust st0
              ++ filter nonempty (map (fun row => snd (row_scores row)) rows);
            data_file := data_file st0 ++ rows |} /\
    Forall2 (document_row model top_n) docs rows.
Proof.
  induction docs as [|[gold abstract] docs IH]; intros Hm st0.
  - exists []. split; [|constructor]. simpl. rewrite !app_nil_r. now destruct st0.
  - destruct (Hm (gold, abstract) (or_introl eq_refl)) as [predicted [rest Hk]].
    simpl in Hk.
    destruct (IH (fun doc Hd => Hm doc (or_intror Hd))
                 {| all_scores := all_scores st0 ++ [fst (scored gold predicted abstract)];
                    all_scores_adjust :=
                      if nonempty (snd (scored gold predicted abstract))
                      then all_scores_adjust st0 ++ [snd (scored gold predicted abstract)]
                      else all_scores_adjust st0;
                    data_file := data_file st0 ++
                                   [{| row_abstract := abstract; row_gold := gold;
                                       row_predicted := predicted;
                                       row_scores := scored gold predicted abstract |}] |})
      as [rows [Hl Hr]].
    exists ({| row_abstract := abstract; row_gold := gold; row_predicted := predicted;
               row_scores := scored gold predicted abstract |} :: rows).
    split.
    + cbn [eval_file_loop eval_step]. rewrite Hk. cbn [bind item0].
      rewrite score_document_scored, Hl. cbn [all_scores all_scores_adjust data_file].
      f_equal. cbn [map filter row_scores].
      destruct (nonempty (snd (scored gold predicted abstract)));
        now rewrite <- !app_assoc.
    + constructor; [|assumption]. exists predicted, rest. split; [assumption | reflexivity].
Qed.

(** C4, as the code has it.  When the model call returns a non-empty result
    on every abstract, the loop of [eval_file] runs to the end: it writes one
    row per document, whose score pair is the one [get_all_scores] returned,
    or the all-zero pair when [get_all_scores] raised; [all_scores] and
    [all_scores_adjust] collect the components of these pairs. *)
Theorem eval_file_scoring_fail_soft
        (model : KeyModel) (top_n : nat)
        (keywords_gold : list (list string)) (abstracts : list string) :
  (forall abstract, In abstract abstracts ->
                    exists predicted rest,
                      get_keywords model abstract top_n = Ok (predicted :: rest)) ->
  exists st,
    eval_file model top_n keywords_gold abstracts = Ok st /\
    Forall2 (document_row model top_n) (combine keywords_gold abstracts) (data_file st) /\
    all_scores st = map (fun row => fst (row_scores row)) (data_file st) /\
    all_scores_adjust st
    = filter nonempty (map (fun row => snd (row_scores row)) (data_file st)).
Proof.
  intros Hm. unfold eval_file.
  destruct (eval_file_loop_rows model top_n (combine keywords_gold abstracts)) with (st0 := initial_state)
    as [rows [Hl Hr]].
  - intros [gold abstract] Hd. apply Hm. now apply in_combine_r in Hd.
  - eexists. split; [exact Hl|]. cbn. repeat split. assumption.
Qed.

(** A model that always answers ["deep learning"], on a document that
    scores and on one whose gold list is empty. *)
Lemma eval_file_scoring_fail_soft_witness :
  exists st,
    eval_file {| model_name := "constant";
                      get_keywords := fun _ _ => Ok [["deep learning"]] |}
                   10 [["deep learning"]; []] ["deep learning is used"; "no keywords"]
    = Ok st /\
    all_scores st = [[2 # 2; 1; 1; 2 # 2]; [0; 0; 0; 0]]%Q /\
    all_scores_adjust st = [[2 # 2; 1; 1; 2 # 2]; [0; 0; 0; 0]]%Q.
Proof.
  destruct (eval_file_scoring_fail_soft
              {| model_name := "constant"; get_keywords := fun _ _ => Ok [["deep learning"]] |}
              10 [["deep learning"]; []] ["deep learning is used"; "no keywords"])
    as [st [Hst _]].
  - intros abstract _. now exists ["deep learning"], [].
  - exists st. split; [exact Hst|].
    vm_compute in Hst. injection Hst as <-. split; reflexivity.
Defined.

(** C4 as stated fails: an exception of the model call is not caught.  The
    call is made before the [try] block; on the second of three documents
    it ends the whole evaluation. *)
Lemma eval_file_model_failure :
  eval_file moody_model 10 [["deep learning"]; ["deep learning"]; ["deep learning"]]
                 ["good"; "bad"; "good"]
  = Raise (ModelFailure 1).
Proof. reflexivity. Qed.

(** * Further properties of the scoring functions *)

(** ** Outcomes of [get_scores] *)

Lemma truediv_raises (x y : Q) (e : exn) : truediv x y = Raise e -> e = ZeroDivisionError.
Proof. unfold truediv. destruct (Qeq_bool y 0); congruence. Qed.

Lemma get_all_Rprecision_raises (gold predicted : list string) (e : exn) :
  predicted <> [] -> get_all_Rprecision gold predicted = Raise e -> e = ZeroDivisionError.
Proof.
  intros Hp E. pose proof (get_all_Rprecision_aggregate gold predicted) as H.
  rewrite E in H. unfold aggregate_spec in H.
  destruct gold; [simpl in H; congruence|]. destruct predicted; [congruence|].
  destruct (forallb _ _); [contradiction | simpl in H; congruence].
Qed.

(** [get_scores] returns exactly when both lists are non-empty and no gold
    phrase meets a predicted phrase with neither having a token; its only
    exception is [ZeroDivisionError]: on an empty [predicted] the division of
    [get_precision] fails before [max] can see an empty sequence. *)
Theorem get_scores_outcome (gold predicted : list string) :
  ((exists m, get_scores gold predicted = Ok m)
   <-> gold <> [] /\ predicted <> [] /\ all_pairs_defined gold predicted = true) /\
  (forall e, get_scores gold predicted = Raise e -> e = ZeroDivisionError).
Proof.
  split.
  - split.
    + intros [m Hm]. now apply get_scores_defined with m.
    + intros [Hg [Hp Hd]]. now apply get_scores_returns.
  - intros e. unfold get_scores.
    destruct (get_recall gold predicted) as [r|er] eqn:Er; cbn [bind].
    2: { intros [= <-]. now apply truediv_raises in Er. }
    destruct (get_precision gold predicted) as [p|ep] eqn:Ep; cbn [bind].
    2: { intros [= <-]. now apply truediv_raises in Ep. }
    destruct (get_f1_returns r p) as [f Hf]. rewrite Hf. cbn [bind].
    destruct (get_all_Rprecision gold predicted) as [rp|erp] eqn:Erp; cbn [bind];
      [discriminate|].
    intros [= <-]. apply get_all_Rprecision_raises with gold predicted; [|assumption].
    intros ->. discriminate.
Qed.

(** ** Whitespace tokens are parts of the string *)

Lemma split_from_tokens (s cur w : string) :
  In w (split_from s cur) -> exists a b, (cur ++ s)%string = (a ++ w ++ b)%string.
Proof.
  revert cur. induction s as [|c s IH]; intros cur; cbn [split_from].
  - destruct cur as [|d cur]; [intros []|]. intros [<-|[]].
    exists "", "". simpl. now rewrite !append_empty_r.
  - destruct (isspace c).
    + destruct cur as [|d cur].
      * intros H. destruct (IH "" H) as [a [b E]]. simpl in E.
        exists (String c a), b. simpl. now rewrite E.
      * intros [<-|H].
        -- exists "", (String c s). reflexivity.
        -- destruct (IH "" H) as [a [b E]]. simpl in E.
           exists (String d cur ++ String c a)%string, b.
           rewrite E, !append_assoc. reflexivity.
    + intros H. destruct (IH _ H) as [a [b E]]. exists a, b.
      rewrite <- E, append_assoc. reflexivity.
Qed.

Lemma split_tokens_in (s w : string) : In w (split s) -> str_in w s = true.
Proof.
  intros H. apply str_in_iff. destruct (split_from_tokens s "" w H) as [a [b E]].
  now exists a, b.
Qed.

Lemma filter_all {A : Type} (test : A -> bool) (l : list A) :
  (forall x, In x l -> test x = true) -> filter test l = l.
Proof.
  intros H. induction l as [|x l IH]; [reflexivity|]. simpl.
  rewrite (H x (or_introl eq_refl)), IH; [reflexivity|]. intros y Hy. apply H. now right.
Qed.

Lemma filter_none {A : Type} (test : A -> bool) (l : list A) :
  (forall x, In x l -> test x = false) -> filter test l = [].
Proof.
  intros H. induction l as [|x l IH]; [reflexivity|]. simpl.
  rewrite (H x (or_introl eq_refl)). apply IH. intros y Hy. apply H. now right.
Qed.

Lemma Qnat_ratio_self (n : nat) : (0 < n)%nat -> (Qnat n / Qnat n == 1)%Q.
Proof.
  intros H. apply Qmult_inv_r. intros E.
  pose proof (Qnat_pos n H) as Hp. rewrite E in Hp. now apply Qlt_irrefl in Hp.
Qed.

Lemma Rprecision_value_self (phrase : string) :
  split phrase <> [] -> (Rprecision_value phrase phrase == 1)%Q.
Proof.
  intros H. unfold Rprecision_value, matched_tokens, token_max.
  rewrite (filter_all _ _ (split_tokens_in phrase)), Nat.max_id.
  apply Qnat_ratio_self. destruct (split phrase); [congruence | simpl; lia].
Qed.

(** ** [get_Rprecision]: range and self-score *)

(** Whenever [get_Rprecision] returns, its value lies between 0 and 1; on a
    phrase with at least one token against itself it returns 1, every token
    of a phrase being contained in the phrase. *)
Theorem get_Rprecision_range (phrase1 phrase2 : string) :
  (forall q, get_Rprecision phrase1 phrase2 = Ok q -> in_unit q) /\
  (split phrase1 <> [] -> exists q, get_Rprecision phrase1 phrase1 = Ok q /\ (q == 1)%Q).
Proof.
  split.
  - intros q Hq.
    destruct (Nat.eq_dec (token_max phrase1 phrase2) 0) as [E0|E0].
    + apply token_max_0 in E0. destruct E0 as [H1 H2].
      rewrite (get_Rprecision_raises _ _ H1 H2) in Hq. discriminate.
    + destruct (get_Rprecision_returns _ _ E0) as [q' [Hq' Hv]].
      rewrite Hq in Hq'. injection Hq' as <-.
      apply in_unit_Qeq with (1 := Hv). apply Rprecision_value_unit.
      now apply pair_defined_token_max.
  - intros H. destruct (get_Rprecision_returns phrase1 phrase1) as [q [Hq Hv]].
    + rewrite token_max_0. tauto.
    + exists q. split; [assumption|]. rewrite Hv. now apply Rprecision_value_self.
Qed.

Lemma get_Rprecision_range_witness :
  exists q, get_Rprecision "deep learning" "deep learning" = Ok q /\ (q == 1)%Q.
Proof.
  apply (proj2 (get_Rprecision_range "deep learning" "deep learning")). discriminate.
Defined.

(** ** [get_all_Rprecision]: range *)

(** Whenever [get_all_Rprecision] returns, its value lies between 0 and 1. *)
Theorem get_all_Rprecision_range (gold predicted : list string) (q : Q) :
  get_all_Rprecision gold predicted = Ok q -> in_unit q.
Proof.
  intros E. destruct (get_all_Rprecision_defined _ _ _ E) as [Hg [Hp Hd]].
  pose proof (get_all_Rprecision_aggregate gold predicted) as H.
  rewrite E in H. unfold aggregate_spec in H.
  destruct gold as [|g gold]; [congruence|]. destruct predicted as [|p predicted]; [congruence|].
  unfold all_pairs_defined in Hd. rewrite Hd in H. cbn [res_eq] in H.
  apply in_unit_Qeq with (1 := H). now apply aggregate_unit.
Qed.

Lemma get_all_Rprecision_range_witness :
  exists q, get_all_Rprecision ["a b c"; "d"] ["a b"; "d e"] = Ok q /\ in_unit q.
Proof.
  destruct (get_all_Rprecision ["a b c"; "d"] ["a b"; "d e"]) as [q|e] eqn:E.
  - exists q. split; [reflexivity|].
    exact (get_all_Rprecision_range ["a b c"; "d"] ["a b"; "d e"] q E).
  - vm_compute in E. discriminate.
Defined.

(** ** Recall and precision share one count *)

Lemma get_recall_value (gold predicted : list string) (r : Q) :
  get_recall gold predicted = Ok r ->
  gold <> [] /\ (r == Qnat (overlap_count gold predicted) / Qnat (List.length gold))%Q.
Proof.
  intros E. pose proof (get_recall_formula gold predicted) as H. rewrite E in H.
  unfold recall_spec in H. destruct gold; [contradiction|]. split; [discriminate | exact H].
Qed.

Lemma get_precision_value (gold predicted : list string) (p : Q) :
  get_precision gold predicted = Ok p ->
  predicted <> [] /\
  (p == Qnat (overlap_count gold predicted) / Qnat (List.length predicted))%Q.
Proof.
  intros E. pose proof (get_precision_formula gold predicted) as H. rewrite E in H.
  unfold precision_spec in H. destruct predicted; [contradiction|].
  split; [discriminate | exact H].
Qed.

Lemma Qnat_nonzero (n : nat) : (0 < n)%nat -> ~ (Qnat n == 0)%Q.
Proof.
  intros H E. pose proof (Qnat_pos n H) as Hp. rewrite E in Hp. now apply Qlt_irrefl in Hp.
Qed.

Lemma length_pos {A : Type} (l : list A) : l <> [] -> (0 < List.length l)%nat.
Proof. destruct l; [congruence | simpl; lia]. Qed.

Lemma Qnat_mult (n m : nat) : (Qnat (n * m) == Qnat n * Qnat m)%Q.
Proof. unfold Qnat. now rewrite Nat2Z.inj_mul, inject_Z_mult. Qed.

(** Whenever [get_precision] returns, its value lies between 0 and 1,
    repeated predictions or not; the recall that [get_recall] returns is not
    negative and is at most [len(predicted)], every predicted item being
    counted once at most. *)
Theorem precision_range_recall_bound (gold predicted : list string) (p : Q) :
  get_precision gold predicted = Ok p ->
  in_unit p /\
  (forall r, get_recall gold predicted = Ok r ->
             (0 <= r)%Q /\ (r <= Qnat (List.length predicted))%Q).
Proof.
  intros Ep. destruct (get_precision_value _ _ _ Ep) as [Hp Vp]. split.
  - apply in_unit_Qeq with (1 := Vp). apply Qnat_ratio_unit.
    + apply overlap_count_le_predicted.
    + now apply length_pos.
  - intros r Er. destruct (get_recall_value _ _ _ Er) as [Hg Vr].
    pose proof (length_pos gold Hg) as Lg.
    pose proof (overlap_count_le_predicted gold predicted) as Lo.
    rewrite Vr. split.
    + apply Qle_shift_div_l; [now apply Qnat_pos|]. rewrite Qmult_0_l. apply Qnat_nonneg.
    + apply Qle_shift_div_r; [now apply Qnat_pos|]. rewrite <- Qnat_mult.
      apply Qnat_le. nia.
Qed.

Lemma precision_range_recall_bound_witness :
  exists p, get_precision ["a"] ["a"; "a"; "b"] = Ok p /\ in_unit p.
Proof.
  destruct (get_precision ["a"] ["a"; "a"; "b"]) as [p|e] eqn:E.
  - exists p. split; [reflexivity|].
    exact (proj1 (precision_range_recall_bound ["a"] ["a"; "a"; "b"] p E)).
  - vm_compute in E. discriminate.
Defined.

(** ** [get_f1] *)

Lemma Qeq_bool_compat (x x' y y' : Q) :
  (x == x')%Q -> (y == y')%Q -> Qeq_bool x y = Qeq_bool x' y'.
Proof.
  intros Ex Ey. destruct (Qeq_bool x' y') eqn:E.
  - apply Qeq_bool_eq in E. apply Qeq_eq_bool. now rewrite Ex, Ey.
  - apply not_true_is_false. intros H. apply Qeq_bool_eq in H.
    rewrite Ex, Ey in H. apply Qeq_eq_bool in H. congruence.
Qed.

Lemma get_f1_compat (r r' p p' : Q) :
  (r == r')%Q -> (p == p')%Q -> res_eq (get_f1 r p) (get_f1 r' p').
Proof.
  intros Er Ep. unfold get_f1, truediv.
  rewrite (Qeq_bool_compat (r + p) (r' + p') 0 0) by (now rewrite ?Er, ?Ep).
  rewrite (Qeq_bool_compat (p + r) (p' + r') 0 0) by (now rewrite ?Er, ?Ep).
  destruct (Qeq_bool (r' + p') 0); [reflexivity|].
  destruct (Qeq_bool (p' + r') 0); [reflexivity|].
  cbn [res_eq]. now rewrite Er, Ep.
Qed.

(** [get_f1] never raises; on a recall and a precision between 0 and 1 it
    does not depend on the order of its two arguments. *)
Theorem get_f1_total_symmetric (r p : Q) :
  (exists f1, get_f1 r p = Ok f1) /\
  (in_unit r -> in_unit p -> res_eq (get_f1 r p) (get_f1 p r)).
Proof.
  split; [apply get_f1_returns|]. intros _ _. unfold get_f1, truediv.
  rewrite (Qeq_bool_compat (p + r) (r + p) 0 0) by (try reflexivity; apply Qplus_comm).
  destruct (Qeq_bool (r + p) 0); [reflexivity|]. cbn [res_eq].
  rewrite (Qplus_comm r p). unfold Qdiv. ring.
Qed.

Lemma get_f1_total_symmetric_witness :
  res_eq (get_f1 (1 # 2) (1 # 3)) (get_f1 (1 # 3) (1 # 2)).
Proof.
  apply (proj2 (get_f1_total_symmetric (1 # 2) (1 # 3))); split; discriminate.
Defined.

(** ** [get_scores] on identical and on disjoint lists *)

Lemma overlap_count_self (l : list string) : overlap_count l l = List.length l.
Proof.
  unfold overlap_count. rewrite filter_all; [reflexivity|].
  intros x Hx. now destruct (in_dec string_dec x l).
Qed.

Lemma overlap_count_disjoint (gold predicted : list string) :
  (forall p, In p predicted -> ~ In p gold) -> overlap_count gold predicted = 0%nat.
Proof.
  intros H. unfold overlap_count. rewrite filter_none; [reflexivity|].
  intros x Hx. destruct (in_dec string_dec x gold); [|reflexivity]. now apply H in Hx.
Qed.

Lemma Qsum_ones (l : list Q) :
  (forall x, In x l -> (x == 1)%Q) -> (Qsum l == Qnat (List.length l))%Q.
Proof.
  induction l as [|x l IH]; intros H.
  - reflexivity.
  - cbn [Qsum fold_right List.length]. fold (Qsum l).
    rewrite (H x (or_introl eq_refl)), IH, Qnat_S by (intros y Hy; apply H; now right).
    ring.
Qed.

Lemma has_token_pair_defined (phrase1 phrase2 : string) :
  split phrase1 <> [] -> pair_defined phrase1 phrase2 = true.
Proof. intros H. unfold pair_defined. destruct (split phrase1); [congruence | reflexivity]. Qed.

Lemma all_pairs_defined_tokens (gold predicted : list string) :
  (forall g, In g gold -> split g <> []) -> all_pairs_defined gold predicted = true.
Proof.
  intros H. unfold all_pairs_defined. apply forallb_forall. intros g Hg.
  apply forallb_forall. intros p _. now apply has_token_pair_defined, H.
Qed.

Lemma best_score_self (l : list string) (g : string) :
  In g l -> (forall p, In p l -> split p <> []) -> (best_score l g == 1)%Q.
Proof.
  intros Hg Ht. unfold best_score.
  assert (Hn : map (Rprecision_value g) l <> []) by (destruct l; [contradiction | discriminate]).
  destruct (maximum_is_maximum _ Hn) as [[x [Hx Ex]] Hub].
  apply Qle_antisym.
  - rewrite <- Ex. apply in_map_iff in Hx. destruct Hx as [p [<- Hp]].
    apply Rprecision_value_unit, has_token_pair_defined. now apply Ht.
  - rewrite <- (Rprecision_value_self g) by (now apply Ht).
    apply Hub. now apply in_map.
Qed.

(** A non-empty list of phrases that all have a token, scored against
    itself, gets 1 for each of f1, recall, precision and R-precision. *)
Theorem get_scores_identical (keywords : list string) :
  keywords <> [] -> (forall p, In p keywords -> split p <> []) ->
  exists f1 recall precision Rprecision,
    get_scores keywords keywords = Ok (f1, recall, precision, Rprecision) /\
    (f1 == 1)%Q /\ (recall == 1)%Q /\ (precision == 1)%Q /\ (Rprecision == 1)%Q.
Proof.
  intros Hn Ht.
  destruct (get_scores_returns keywords keywords Hn Hn (all_pairs_defined_tokens _ _ Ht))
    as [[[[f r] p] rp] E].
  exists f, r, p, rp. split; [assumption|]. unfold get_scores in E.
  destruct (get_recall keywords keywords) as [r0|] eqn:Er; [cbn [bind] in E | discriminate].
  destruct (get_precision keywords keywords) as [p0|] eqn:Ep; [cbn [bind] in E | discriminate].
  destruct (get_f1 r0 p0) as [f0|] eqn:Ef; [cbn [bind] in E | discriminate].
  destruct (get_all_Rprecision keywords keywords) as [rp0|] eqn:Ea;
    [cbn [bind] in E | discriminate].
  injection E as <- <- <- <-.
  destruct (get_recall_value _ _ _ Er) as [_ Vr].
  destruct (get_precision_value _ _ _ Ep) as [_ Vp].
  rewrite overlap_count_self in Vr, Vp.
  rewrite Qnat_ratio_self in Vr, Vp by (now apply length_pos).
  assert (Vf : (f0 == 1)%Q).
  { pose proof (get_f1_compat r0 1 p0 1 Vr Vp) as H. rewrite Ef in H.
    replace (get_f1 1 1) with (@Ok Q (2 # 2)) in H by reflexivity.
    cbn [res_eq] in H. rewrite H. reflexivity. }
  assert (Va : (rp0 == 1)%Q).
  { pose proof (get_all_Rprecision_aggregate keywords keywords) as H. rewrite Ea in H.
    unfold aggregate_spec in H. destruct keywords as [|k ks]; [congruence|].
    fold (all_pairs_defined (k :: ks) (k :: ks)) in H.
    rewrite (all_pairs_defined_tokens _ _ Ht) in H. cbn [res_eq] in H.
    rewrite H. unfold average. rewrite Qsum_ones.
    - rewrite length_map. apply Qnat_ratio_self. simpl; lia.
    - intros x Hx. apply in_map_iff in Hx. destruct Hx as [g [<- Hg]].
      now apply best_score_self. }
  tauto.
Qed.

Lemma get_scores_identical_witness :
  exists f1 recall precision Rprecision,
    get_scores ["deep learning"; "logic"; "logic"] ["deep learning"; "logic"; "logic"]
    = Ok (f1, recall, precision, Rprecision) /\
    (f1 == 1)%Q /\ (recall == 1)%Q /\ (precision == 1)%Q /\ (Rprecision == 1)%Q.
Proof.
  apply get_scores_identical.
  - discriminate.
  - intros p [<-|[<-|[<-|[]]]]; discriminate.
Defined.

(** When no predicted item appears in gold, the recall, the precision and
    the f1 that [get_scores] returns are 0. *)
Theorem get_scores_disjoint (gold predicted : list string) (f1 recall precision Rprecision : Q) :
  (forall p, In p predicted -> ~ In p gold) ->
  get_scores gold predicted = Ok (f1, recall, precision, Rprecision) ->
  (f1 == 0)%Q /\ (recall == 0)%Q /\ (precision == 0)%Q.
Proof.
  intros Hd E. unfold get_scores in E.
  destruct (get_recall gold predicted) as [r0|] eqn:Er; [cbn [bind] in E | discriminate].
  destruct (get_precision gold predicted) as [p0|] eqn:Ep; [cbn [bind] in E | discriminate].
  destruct (get_f1 r0 p0) as [f0|] eqn:Ef; [cbn [bind] in E | discriminate].
  destruct (get_all_Rprecision gold predicted) as [rp0|]; [cbn [bind] in E | discriminate].
  injection E as <- <- <- <-.
  destruct (get_recall_value _ _ _ Er) as [_ Vr].
  destruct (get_precision_value _ _ _ Ep) as [_ Vp].
  rewrite (overlap_count_disjoint _ _ Hd) in Vr, Vp.
  assert (Z : forall d, (Qnat 0 / d == 0)%Q) by (intros d; unfold Qdiv; apply Qmult_0_l).
  rewrite Z in Vr, Vp.
  pose proof (get_f1_compat r0 0 p0 0 Vr Vp) as H. rewrite Ef in H.
  replace (get_f1 0 0) with (@Ok Q 0) in H by reflexivity. cbn [res_eq] in H.
  repeat split; assumption.
Qed.

Lemma get_scores_disjoint_witness :
  exists f1 recall precision Rprecision,
    get_scores ["neural networks"] ["optimization"; "networks"]
    = Ok (f1, recall, precision, Rprecision) /\
    (f1 == 0)%Q /\ (recall == 0)%Q /\ (precision == 0)%Q.
Proof.
  destruct (get_scores ["neural networks"] ["optimization"; "networks"])
    as [[[[f r] p] rp]|e] eqn:E.
  - exists f, r, p, rp. split; [reflexivity|].
    apply (get_scores_disjoint ["neural networks"] ["optimization"; "networks"] f r p rp);
      [|exact E].
    intros x [<-|[<-|[]]] [H|[]]; discriminate.
  - vm_compute in E. discriminate.
Defined.

(** ** [get_scores] does not depend on the order of either list *)

Lemma filter_length_perm {A : Type} (test : A -> bool) (l l' : list A) :
  Permutation l l' -> List.length (filter test l) = List.length (filter test l').
Proof.
  induction 1 as [|x l l' _ IH|x y l|l l' l'' _ IH1 _ IH2]; simpl.
  - reflexivity.
  - destruct (test x); simpl; now rewrite IH.
  - destruct (test x), (test y); reflexivity.
  - now rewrite IH1.
Qed.

Lemma overlap_count_perm (gold gold' predicted predicted' : list string) :
  Permutation gold gold' -> Permutation predicted predicted' ->
  overlap_count gold predicted = overlap_count gold' predicted'.
Proof.
  intros Pg Pp. unfold overlap_count.
  rewrite (filter_length_perm _ _ _ Pp). f_equal. apply filter_ext. intros p.
  destruct (in_dec string_dec p gold) as [H|H], (in_dec string_dec p gold') as [H'|H'];
    try reflexivity; exfalso.
  - apply H'. now apply (Permutation_in _ Pg).
  - apply H. now apply (Permutation_in _ (Permutation_sym Pg)).
Qed.

Lemma recall_spec_perm (gold gold' predicted predicted' : list string) :
  Permutation gold gold' -> Permutation predicted predicted' ->
  recall_spec gold predicted = recall_spec gold' predicted'.
Proof.
  intros Pg Pp. unfold recall_spec.
  rewrite (overlap_count_perm _ _ _ _ Pg Pp), (Permutation_length Pg).
  destruct gold, gold'; try reflexivity.
  - apply Permutation_nil in Pg. discriminate.
  - apply Permutation_sym, Permutation_nil in Pg. discriminate.
Qed.

Lemma precision_spec_perm (gold gold' predicted predicted' : list string) :
  Permutation gold gold' -> Permutation predicted predicted' ->
  precision_spec gold predicted = precision_spec gold' predicted'.
Proof.
  intros Pg Pp. unfold precision_spec.
  rewrite (overlap_count_perm _ _ _ _ Pg Pp), (Permutation_length Pp).
  destruct predicted, predicted'; try reflexivity.
  - apply Permutation_nil in Pp. discriminate.
  - apply Permutation_sym, Permutation_nil in Pp. discriminate.
Qed.

Lemma get_recall_perm (gold gold' predicted predicted' : list string) :
  Permutation gold gold' -> Permutation predicted predicted' ->
  res_eq (get_recall gold predicted) (get_recall gold' predicted').
Proof.
  intros Pg Pp. eapply res_eq_trans; [apply get_recall_formula|].
  rewrite (recall_spec_perm _ _ _ _ Pg Pp). apply res_eq_sym, get_recall_formula.
Qed.

Lemma get_precision_perm (gold gold' predicted predicted' : list string) :
  Permutation gold gold' -> Permutation predicted predicted' ->
  res_eq (get_precision gold predicted) (get_precision gold' predicted').
Proof.
  intros Pg Pp. eapply res_eq_trans; [apply get_precision_formula|].
  rewrite (precision_spec_perm _ _ _ _ Pg Pp). apply res_eq_sym, get_precision_formula.
Qed.

(** In exact arithmetic the four scores depend on the order of neither
    list. *)
Lemma get_scores_perm (gold gold' predicted predicted' : list string) :
  Permutation gold gold' -> Permutation predicted predicted' ->
  scores_eq (get_scores gold predicted) (get_scores gold' predicted').
Proof.
  intros Pg Pp. unfold get_scores.
  pose proof (get_recall_perm _ _ _ _ Pg Pp) as Hr.
  pose proof (get_precision_perm _ _ _ _ Pg Pp) as Hp.
  pose proof (get_all_Rprecision_perm _ _ _ _ Pg Pp) as Ha.
  destruct (get_recall gold predicted) as [r|], (get_recall gold' predicted') as [r'|];
    cbn [res_eq] in Hr; try contradiction; cbn [bind]; [|exact Hr].
  destruct (get_precision gold predicted) as [p|], (get_precision gold' predicted') as [p'|];
    cbn [res_eq] in Hp; try contradiction; cbn [bind]; [|exact Hp].
  pose proof (get_f1_compat r r' p p' Hr Hp) as Hf.
  destruct (get_f1 r p) as [f|], (get_f1 r' p') as [f'|];
    cbn [res_eq] in Hf; try contradiction; cbn [bind]; [|exact Hf].
  destruct (get_all_Rprecision gold predicted) as [a|],
           (get_all_Rprecision gold' predicted') as [a'|];
    cbn [res_eq] in Ha; try contradiction; cbn [bind scores_eq]; [|exact Ha].
  tauto.
Qed.

(** [get_scores] gives the same outcome, the same four scores or the same
    exception, on any reordering of the predicted list; on a reordering of
    the gold list it raises or returns alike, with the same f1, recall and
    precision. *)
Theorem get_scores_permutation_invariant (gold gold' predicted predicted' : list string) :
  Permutation gold gold' -> Permutation predicted predicted' ->
  scores_eq (get_scores gold predicted) (get_scores gold predicted') /\
  scores_agree3 (get_scores gold predicted) (get_scores gold' predicted).
Proof.
  intros Pg Pp. split.
  - now apply get_scores_perm.
  - pose proof (get_scores_perm gold gold' predicted predicted Pg (Permutation_refl _)) as H.
    unfold scores_eq in H. unfold scores_agree3.
    destruct (get_scores gold predicted) as [[[[f r] p] a]|],
             (get_scores gold' predicted) as [[[[f' r'] p'] a']|]; tauto.
Qed.

Lemma get_scores_permutation_invariant_witness :
  scores_eq (get_scores ["a b c"; "d"; "a"] ["a"; "d e"])
            (get_scores ["a b c"; "d"; "a"] ["d e"; "a"]) /\
  scores_agree3 (get_scores ["a b c"; "d"; "a"] ["a"; "d e"])
                (get_scores ["d"; "a b c"; "a"] ["a"; "d e"]).
Proof.
  apply get_scores_permutation_invariant; apply perm_swap.
Defined.

(** With no repeated prediction the four scores are in range; the lemma
    [get_scores_unit_without_duplicates] above, at a concrete input. *)
Lemma get_scores_unit_without_duplicates_witness :
  exists f1 recall precision Rprecision,
    get_scores ["a b c"; "d"] ["a b"; "d"] = Ok (f1, recall, precision, Rprecision) /\
    in_unit f1 /\ in_unit recall /\ in_unit precision /\ in_unit Rprecision.
Proof.
  destruct (get_scores ["a b c"; "d"] ["a b"; "d"]) as [[[[f r] p] rp]|e] eqn:E.
  - exists f, r, p, rp. split; [reflexivity|].
    apply (get_scores_unit_without_duplicates ["a b c"; "d"] ["a b"; "d"] f r p rp); [|exact E].
    repeat constructor; simpl; intuition discriminate.
  - vm_compute in E. discriminate.
Defined.

(** ** The adjusted component of [get_all_scores] *)

Lemma get_scores_parts (gold predicted : list string) (f1 recall precision Rprecision : Q) :
  get_scores gold predicted = Ok (f1, recall, precision, Rprecision) ->
  get_recall gold predicted = Ok recall /\ get_precision gold predicted = Ok precision /\
  get_f1 recall precision = Ok f1 /\ get_all_Rprecision gold predicted = Ok Rprecision.
Proof.
  unfold get_scores. intros E.
  destruct (get_recall gold predicted) as [r0|]; [cbn [bind] in E | discriminate].
  destruct (get_precision gold predicted) as [p0|]; [cbn [bind] in E | discriminate].
  destruct (get_f1 r0 p0) as [f0|] eqn:Ef; [cbn [bind] in E | discriminate].
  destruct (get_all_Rprecision gold predicted) as [rp0|]; [cbn [bind] in E | discriminate].
  injection E as <- <- <- <-. tauto.
Qed.

Lemma seq_of_length (t : ScoreTuple) : List.length (seq_of t) = 4%nat.
Proof. now destruct t as [[[f r] p] rp]. Qed.

Lemma truthy_empty (text : string) : truthy text = false -> text = "".
Proof. destruct text; [reflexivity | discriminate]. Qed.

(** When [get_all_scores] returns, its adjusted component is empty exactly
    when [adjust] is false, or [text] is empty, or no gold keyword is
    contained in [text]; otherwise it holds four scores. *)
Theorem get_all_scores_adjusted_empty
        (gold predicted : list string) (text : string) (adjust : bool)
        (metrics : ScoreTuple) (adjusted_metrics : list Q) :
  get_all_scores gold predicted text adjust = Ok (metrics, adjusted_metrics) ->
  (adjusted_metrics = []
   <-> adjust = false \/ text = "" \/ AdjustedGold gold text = []) /\
  (adjusted_metrics <> [] -> List.length adjusted_metrics = 4%nat).
Proof.
  unfold get_all_scores.
  destruct (get_scores gold predicted) as [m|]; [cbn [bind] | discriminate].
  destruct adjust.
  2: { intros [= <- <-]. split; [tauto | congruence]. }
  destruct (truthy text) eqn:Et.
  2: { intros [= <- <-]. apply truthy_empty in Et. split; [tauto | congruence]. }
  assert (Ht : text <> "") by (intros ->; discriminate).
  rewrite adjusted_gold_of_filter.
  destruct (AdjustedGold gold text) as [|g adjusted_gold] eqn:Ea; cbn [List.length Nat.ltb Nat.leb].
  - intros [= <- <-]. split; [tauto | congruence].
  - destruct (get_scores (g :: adjusted_gold) predicted) as [a|]; [cbn [bind] | discriminate].
    intros [= <- <-]. split.
    + split.
      * intros H. pose proof (seq_of_length a) as L. rewrite H in L. discriminate.
      * intros [H|[H|H]]; congruence.
    + intros _. apply seq_of_length.
Qed.

Lemma get_all_scores_adjusted_empty_witness :
  exists metrics adjusted_metrics,
    get_all_scores ["neural networks"; "deep learning"] ["neural networks"; "optimization"]
                   "we use neural networks" true
    = Ok (metrics, adjusted_metrics) /\
    List.length adjusted_metrics = 4%nat.
Proof.
  destruct (get_all_scores ["neural networks"; "deep learning"]
                           ["neural networks"; "optimization"]
                           "we use neural networks" true) as [[m a]|e] eqn:E.
  - exists m, a. split; [reflexivity|].
    apply (proj2 (get_all_scores_adjusted_empty _ _ _ _ m a E)).
    vm_compute in E. injection E as _ <-. discriminate.
  - vm_compute in E. discriminate.
Defined.

(** ** Adjusted scores of predictions taken from the text *)

Lemma Qnat_ratio_antitone (k n m : nat) :
  (0 < m)%nat -> (m <= n)%nat -> (Qnat k / Qnat n <= Qnat k / Qnat m)%Q.
Proof.
  intros Hm Hmn. apply Qle_shift_div_r; [apply Qnat_pos; lia|].
  setoid_replace (Qnat k / Qnat m * Qnat n)%Q with (Qnat k * Qnat n / Qnat m)%Q
    by (unfold Qdiv; ring).
  apply Qle_shift_div_l; [now apply Qnat_pos|].
  rewrite !(Qmult_comm (Qnat k)). apply Qmult_le_compat_r; [now apply Qnat_le | apply Qnat_nonneg].
Qed.

Lemma overlap_count_adjusted (gold predicted : list string) (text : string) :
  (forall p, In p predicted -> str_in p text = true) ->
  overlap_count (AdjustedGold gold text) predicted = overlap_count gold predicted.
Proof.
  intros H. unfold overlap_count. f_equal. apply filter_ext_in. intros p Hp.
  destruct (in_dec string_dec p (AdjustedGold gold text)) as [Hi|Hi],
           (in_dec string_dec p gold) as [Hg|Hg]; try reflexivity; exfalso.
  - apply Hg. unfold AdjustedGold in Hi. apply filter_In in Hi. tauto.
  - apply Hi. unfold AdjustedGold. apply filter_In. split; [assumption | now apply H].
Qed.

(** When every predicted phrase occurs in the text, adjusting the gold list
    cannot lower the recall and leaves the precision as it is: the adjusted
    recall is at least the recall, the adjusted precision equals the
    precision. *)
Theorem get_all_scores_extractive
        (gold predicted : list string) (text : string)
        (f1 recall precision Rprecision f1' recall' precision' Rprecision' : Q) :
  (forall p, In p predicted -> str_in p text = true) ->
  get_all_scores gold predicted text true
  = Ok ((f1, recall, precision, Rprecision), [f1'; recall'; precision'; Rprecision']) ->
  (recall <= recall')%Q /\ (precision' == precision)%Q.
Proof.
  intros Hx E.
  assert (Hc := E). unfold get_all_scores in Hc.
  destruct (get_scores gold predicted) as [m|] eqn:Em; [cbn [bind] in Hc | discriminate].
  destruct (truthy text); [|discriminate].
  rewrite adjusted_gold_of_filter in Hc.
  destruct (AdjustedGold gold text) as [|g adjusted_gold] eqn:Ea; [discriminate|].
  cbn [List.length Nat.ltb Nat.leb] in Hc.
  destruct (get_scores (g :: adjusted_gold) predicted) as [[[[fa ra] pa] rpa]|] eqn:Eadj;
    [cbn [bind] in Hc | discriminate].
  injection Hc as -> <- <- <- <-.
  destruct (get_scores_parts _ _ _ _ _ _ Em) as [Er [Ep _]].
  destruct (get_scores_parts _ _ _ _ _ _ Eadj) as [Er' [Ep' _]].
  destruct (get_recall_value _ _ _ Er) as [Hg Vr].
  destruct (get_precision_value _ _ _ Ep) as [_ Vp].
  destruct (get_recall_value _ _ _ Er') as [_ Vr'].
  destruct (get_precision_value _ _ _ Ep') as [_ Vp'].
  rewrite <- Ea in Vr', Vp'. rewrite (overlap_count_adjusted _ _ _ Hx) in Vr', Vp'.
  split.
  - rewrite Vr, Vr'. apply Qnat_ratio_antitone.
    + rewrite Ea. simpl; lia.
    + unfold AdjustedGold. apply filter_length_le.
  - now rewrite Vp, Vp'.
Qed.

Lemma get_all_scores_extractive_witness :
  exists f1 recall precision Rprecision f1' recall' precision' Rprecision',
    get_all_scores ["neural networks"; "deep learning"] ["neural networks"; "use"]
                   "we use neural networks" true
    = Ok ((f1, recall, precision, Rprecision), [f1'; recall'; precision'; Rprecision']) /\
    (recall <= recall')%Q /\ (precision' == precision)%Q.
Proof.
  do 8 eexists. split; [vm_compute; reflexivity|].
  eapply (get_all_scores_extractive ["neural networks"; "deep learning"]
                                    ["neural networks"; "use"] "we use neural networks").
  - intros p [<-|[<-|[]]]; reflexivity.
  - vm_compute. reflexivity.
Defined.

(** * Further properties of the keyword parser *)

Lemma split_scan_fields (sep : string) (n : nat) :
  sep <> "" ->
  forall s cur f, (String.length s <= n)%nat -> In f (split_scan sep s 0 cur) ->
                  exists a b, (cur ++ s)%string = (a ++ f ++ b)%string.
Proof.
  intros Hsep. induction n as [|n IH]; intros s cur f Hn.
  - destruct s; [|simpl in Hn; lia]. intros [<-|[]].
    exists "", "". simpl. now rewrite !append_empty_r.
  - destruct s as [|c s].
    + intros [<-|[]]. exists "", "". simpl. now rewrite !append_empty_r.
    + cbn [split_scan]. destruct (prefix sep (String c s)) eqn:Ep.
      * apply prefix_iff in Ep. destruct Ep as [rest Hrest].
        destruct sep as [|d w]; [congruence|]. simpl in Hrest.
        injection Hrest as Hc Hs. subst c s.
        replace (String.length (String d w) - 1)%nat with (String.length w) by (simpl; lia).
        rewrite split_scan_skip. intros [<-|H].
        -- exists "", (String d (w ++ rest)). reflexivity.
        -- destruct (IH rest "" f) as [a [b E]]; [|assumption|].
           ++ simpl in Hn. rewrite length_append in Hn. lia.
           ++ simpl in E. exists (cur ++ String d w ++ a)%string, b.
              rewrite E, ?append_assoc. simpl. now rewrite ?append_assoc.
      * intros H.
        destruct (IH s (cur ++ String c "")%string f) as [a [b E]];
          [simpl in Hn; lia | exact H |].
        exists a, b. rewrite <- E, append_assoc. reflexivity.
Qed.

Lemma split_on_fields (sep s f : string) :
  sep <> "" -> In f (split_on sep s) -> exists a b, s = (a ++ f ++ b)%string.
Proof.
  intros Hsep H.
  exact (split_scan_fields sep (String.length s) Hsep s "" f (Nat.le_refl _) H).
Qed.

Lemma str_in_part (x f s a b : string) :
  s = (a ++ f ++ b)%string -> str_in x f = true -> str_in x s = true.
Proof.
  intros -> H. apply str_in_iff in H. destruct H as [a' [b' ->]].
  apply str_in_iff. exists (a ++ a')%string, (b' ++ b)%string.
  now rewrite !append_assoc.
Qed.

Lemma split_on_fields_absent (x sep s f : string) :
  sep <> "" -> str_in x s = false -> In f (split_on sep s) -> str_in x f = false.
Proof.
  intros Hsep Hx Hf. destruct (split_on_fields _ _ _ Hsep Hf) as [a [b E]].
  apply not_true_is_false. intros H. rewrite (str_in_part _ _ _ _ _ E H) in Hx. discriminate.
Qed.

Lemma delimiter_nonempty (raw : string) : delimiter raw <> "".
Proof.
  unfold delimiter. cbn [find].
  destruct (str_in ";" raw); [discriminate|].
  destruct (str_in "," raw); [discriminate|].
  destruct (str_in tab raw); discriminate.
Qed.

Lemma normalized_fields_plain (fragments : list string) :
  (forall f, In f fragments -> str_in "---" f = false) ->
  normalized_fields (fun s => s) fragments = fragments.
Proof.
  intros H. induction fragments as [|f fragments IH]; [reflexivity|].
  unfold normalized_fields in *. cbn [flat_map].
  rewrite (split_on_absent _ _ (H f (or_introl eq_refl))), IH; [reflexivity|].
  intros g Hg. apply H. now right.
Qed.

(** With a normalizer that changes nothing and a field without ["---"],
    joining the parsed keywords with the delimiter that was chosen gives the
    raw field back: the parser drops no character and cuts at the delimiter
    only. *)
Theorem process_keyword_join (raw : string) :
  str_in "---" raw = false ->
  join (delimiter raw) (process_keyword (fun s => s) raw) = raw.
Proof.
  intros H. rewrite process_keyword_fields, normalized_fields_plain.
  - apply join_split_on, delimiter_nonempty.
  - intros f Hf.
    now apply (split_on_fields_absent "---" (delimiter raw) raw f (delimiter_nonempty raw)).
Qed.

Lemma process_keyword_join_witness :
  join ";" (process_keyword (fun s => s) "graph theory; logic, sets;") = "graph theory; logic, sets;".
Proof.
  exact (process_keyword_join "graph theory; logic, sets;" eq_refl).
Defined.

Lemma split_on_nonempty (sep s : string) : split_on sep s <> [].
Proof.
  unfold split_on. destruct (split_scan_cons sep s 0 "") as [f [fields E]].
  rewrite E. discriminate.
Qed.

(** The parser returns at least one keyword for every field, the empty
    field included; a field in which none of [;], [,], tab, [" to"] and
    ["---"] occurs is a single keyword. *)
Theorem process_keyword_nonempty (clean : string -> string) (raw : string) :
  process_keyword clean raw <> [] /\
  (str_in ";" raw = false -> str_in "," raw = false -> str_in tab raw = false ->
   str_in " to" raw = false -> str_in "---" raw = false ->
   process_keyword clean raw = [clean raw]).
Proof.
  split.
  - rewrite process_keyword_fields.
    destruct (split_on (delimiter raw) raw) as [|f fields] eqn:E.
    + now apply split_on_nonempty in E.
    + unfold normalized_fields. cbn [flat_map].
      destruct (split_on "---" f) as [|k ks] eqn:Ek.
      * now apply split_on_nonempty in Ek.
      * discriminate.
  - intros H1 H2 H3 H4 H5. unfold process_keyword. rewrite H1, H2, H3.
    rewrite (split_on_absent _ _ H4). cbn [fold_left]. unfold extend_new. now rewrite H5.
Qed.

Lemma process_keyword_nonempty_witness :
  process_keyword (fun s => s) "" = [""] /\
  process_keyword (fun s => s) "graph theory" = ["graph theory"].
Proof.
  split.
  - apply (proj2 (process_keyword_nonempty (fun s => s) "")); reflexivity.
  - apply (proj2 (process_keyword_nonempty (fun s => s) "graph theory")); reflexivity.
Defined.

(** The two variants of the parser on a field whose delimiter is a comma. *)
Lemma KeyEval_process_keyword_agrees_witness :
  KeyEval.process_keyword (fun s => s) "graph theory, logic"
  = process_keyword (fun s => s) "graph theory, logic".
Proof.
  exact (KeyEval_process_keyword_agrees (fun s => s) "graph theory, logic" eq_refl).
Defined.

(** * Further properties of the evaluation loops *)

Lemma eval_file_loop_calls (model : KeyModel) (top_n : nat)
      (docs : list (list string * string)) (st0 st : eval_state) :
  eval_file_loop model top_n st0 docs = Ok st ->
  forall doc, In doc docs ->
              exists predicted rest, get_keywords model (snd doc) top_n = Ok (predicted :: rest).
Proof.
  revert st0. induction docs as [|[gold abstract] docs IH]; intros st0 E doc Hd; [contradiction|].
  cbn [eval_file_loop] in E.
  destruct (eval_step model top_n st0 (gold, abstract)) as [st1|] eqn:E1;
    [cbn [bind] in E | discriminate].
  destruct Hd as [<-|Hd]; [|now apply (IH st1 E)].
  unfold eval_step in E1. cbn [snd].
  destruct (get_keywords model abstract top_n) as [[|predicted rest]|];
    try discriminate.
  now exists predicted, rest.
Qed.

(** The loop of [eval_file] runs to its end exactly when the model call
    returns a non-empty result on every document; no outcome of the scoring
    can stop it. *)
Theorem eval_file_returns_iff (model : KeyModel) (top_n : nat)
        (keywords_gold : list (list string)) (abstracts : list string) :
  List.length keywords_gold = List.length abstracts ->
  ((exists st, eval_file model top_n keywords_gold abstracts = Ok st)
   <-> forall abstract, In abstract abstracts ->
                        exists predicted rest,
                          get_keywords model abstract top_n = Ok (predicted :: rest)).
Proof.
  intros Hl. unfold eval_file. split.
  - intros [st E] abstract Ha.
    destruct (In_nth_error _ _ Ha) as [i Hi].
    assert (Hlt : (i < List.length keywords_gold)%nat).
    { rewrite Hl. apply nth_error_Some. congruence. }
    destruct (nth_error keywords_gold i) as [gold|] eqn:Hg;
      [|apply nth_error_None in Hg; lia].
    apply (eval_file_loop_calls _ _ _ _ _ E (gold, abstract)).
    apply (nth_error_In _ i). clear - Hi Hg.
    revert keywords_gold abstracts Hi Hg.
    induction i as [|i IH]; intros [|g gs] [|a as_] Hi Hg; try discriminate; simpl in *.
    + congruence.
    + now apply IH.
  - intros Hm.
    destruct (eval_file_loop_rows model top_n (combine keywords_gold abstracts))
      with (st0 := initial_state) as [rows [E _]].
    + intros [gold abstract] Hd. apply Hm. now apply in_combine_r in Hd.
    + eexists. exact E.
Qed.

Lemma eval_file_returns_iff_witness :
  exists st,
    eval_file {| model_name := "constant";
                 get_keywords := fun _ _ => Ok [["deep learning"]] |}
              10 [["deep learning"]; []] ["deep learning is used"; "no keywords"]
    = Ok st.
Proof.
  apply (proj2 (eval_file_returns_iff
                  {| model_name := "constant";
                     get_keywords := fun _ _ => Ok [["deep learning"]] |}
                  10 [["deep learning"]; []] ["deep learning is used"; "no keywords"]
                  eq_refl)).
  intros abstract _. now exists ["deep learning"], [].
Defined.

Lemma scored_counted (gold predicted : list string) (abstract : string) :
  nonempty (snd (scored gold predicted abstract)) = adjust_counted gold predicted abstract.
Proof.
  unfold scored, adjust_counted, get_all_scores.
  destruct (get_scores gold predicted) as [m|] eqn:Em; [cbn [bind] | reflexivity].
  destruct (truthy abstract); [|reflexivity]. rewrite adjusted_gold_of_filter.
  destruct (AdjustedGold gold abstract) as [|g adjusted_gold] eqn:Ea; [reflexivity|].
  cbn [List.length Nat.ltb Nat.leb andb nonempty].
  destruct (get_scores_defined _ _ _ Em) as [_ [Hp Hd]].
  destruct (get_scores_returns (g :: adjusted_gold) predicted) as [[[[f r] p] rp] Ha].
  - discriminate.
  - assumption.
  - rewrite <- Ea. now apply all_pairs_defined_filter.
  - rewrite Ha. reflexivity.
Qed.

Lemma document_rows_adjusted (model : KeyModel) (top_n : nat)
      (docs : list (list string * string)) (rows : list data_row) :
  Forall2 (document_row model top_n) docs rows ->
  filter nonempty (map (fun row => snd (row_scores row)) rows)
  = map (fun row => snd (row_scores row))
        (filter (fun row => adjust_counted (row_gold row) (row_predicted row) (row_abstract row))
                rows).
Proof.
  induction 1 as [|doc row docs rows [predicted [rest [_ ->]]] _ IH]; [reflexivity|].
  cbn [map filter row_scores row_gold row_predicted row_abstract].
  rewrite scored_counted.
  destruct (adjust_counted (fst doc) predicted (snd doc)); cbn [map row_scores]; now rewrite IH.
Qed.

(** When the loop of [eval_file] returns, [all_scores] has one entry per
    document and [data_file] one row per document; [all_scores_adjust] has
    an entry for the documents whose scoring raised (the zeros of the
    handler) and for those whose non-empty abstract contains a gold keyword,
    and for no other. *)
Theorem eval_file_counts (model : KeyModel) (top_n : nat)
        (keywords_gold : list (list string)) (abstracts : list string) (st : eval_state) :
  List.length keywords_gold = List.length abstracts ->
  eval_file model top_n keywords_gold abstracts = Ok st ->
  List.length (all_scores st) = List.length keywords_gold /\
  List.length (data_file st) = List.length keywords_gold /\
  all_scores_adjust st
  = map (fun row => snd (row_scores row))
        (filter (fun row => adjust_counted (row_gold row) (row_predicted row) (row_abstract row))
                (data_file st)) /\
  (List.length (all_scores_adjust st) <= List.length (all_scores st))%nat.
Proof.
  intros Hl E. unfold eval_file in E.
  destruct (eval_file_loop_rows model top_n (combine keywords_gold abstracts)
                                (eval_file_loop_calls _ _ _ _ _ E) initial_state)
    as [rows [E' F]].
  rewrite E in E'. injection E' as ->. cbn [all_scores all_scores_adjust data_file app].
  pose proof (Forall2_length F) as L. rewrite length_combine, <- Hl, Nat.min_id in L.
  rewrite length_map, <- L. repeat split.
  - now apply document_rows_adjusted with model top_n (combine keywords_gold abstracts).
  - rewrite L, <- (length_map (fun row => snd (row_scores row)) rows).
    apply filter_length_le.
Qed.

Lemma eval_file_counts_witness :
  exists st,
    eval_file {| model_name := "constant";
                 get_keywords := fun _ _ => Ok [["deep learning"]] |}
              10 [["deep learning"]; []; ["logic"]]
              ["deep learning is used"; "no keywords"; "sets"]
    = Ok st /\
    List.length (all_scores st) = 3%nat /\ List.length (all_scores_adjust st) = 2%nat.
Proof.
  destruct (eval_file {| model_name := "constant";
                         get_keywords := fun _ _ => Ok [["deep learning"]] |}
                      10 [["deep learning"]; []; ["logic"]]
                      ["deep learning is used"; "no keywords"; "sets"]) as [st|e] eqn:E.
  - exists st. split; [reflexivity|].
    destruct (eval_file_counts
                {| model_name := "constant";
                   get_keywords := fun _ _ => Ok [["deep learning"]] |}
                10 [["deep learning"]; []; ["logic"]]
                ["deep learning is used"; "no keywords"; "sets"] st eq_refl E) as [H1 _].
    split; [exact H1|]. vm_compute in E. injection E as <-. reflexivity.
  - vm_compute in E. discriminate.
Defined.

(** ** The loop of [KeyEval.py] *)






(** * Properties of [mask] *)

Lemma entries_from_cons (n : nat) (x : string) (order : list string) :
  entries_from n (x :: order) = (x, n) :: entries_from (S n) order.
Proof. reflexivity. Qed.

Lemma dict_get_entries (order : list string) (n : nat) (x : string) :
  dict_get (entries_from n order) x
  = if list_in x order then Some (n + position order x)%nat else None.
Proof.
  revert n. induction order as [|y order IH]; intros n; [reflexivity|].
  rewrite entries_from_cons. cbn [dict_get position list_in existsb].
  destruct (String.eqb x y); cbn [orb].
  - f_equal. lia.
  - rewrite IH. fold (list_in x order). destruct (list_in x order); [|reflexivity].
    f_equal. lia.
Qed.

Lemma dict_set_entries (order : list string) (n : nat) (x : string) :
  list_in x order = false ->
  dict_set (entries_from n order) x (n + List.length order)%nat
  = entries_from n (order ++ [x]).
Proof.
  revert n. induction order as [|y order IH]; intros n H.
  - simpl. now rewrite Nat.add_0_r.
  - cbn [list_in existsb] in H. apply orb_false_iff in H. destruct H as [Hxy Hx].
    cbn [app]. rewrite !entries_from_cons. cbn [dict_set]. rewrite Hxy.
    f_equal. rewrite <- (IH (S n) Hx). f_equal. simpl. lia.
Qed.

Lemma dict_set_entries0 (order : list string) (x : string) :
  list_in x order = false ->
  dict_set (entries_from 0 order) x (List.length order) = entries_from 0 (order ++ [x]).
Proof. intros H. now rewrite <- (dict_set_entries order 0 x H). Qed.

Lemma position_app (order more : list string) (x : string) :
  list_in x order = true -> position (order ++ more) x = position order x.
Proof.
  induction order as [|y order IH]; [discriminate|].
  cbn [list_in existsb app position]. destruct (String.eqb x y); [reflexivity|].
  cbn [orb]. intros H. now rewrite IH.
Qed.

Lemma position_fresh (order : list string) (x : string) :
  list_in x order = false -> position (order ++ [x]) x = List.length order.
Proof.
  induction order as [|y order IH]; intros H.
  - simpl. now rewrite String.eqb_refl.
  - cbn [list_in existsb] in H. apply orb_false_iff in H. destruct H as [Hxy Hx].
    cbn [app position List.length]. rewrite Hxy. now rewrite IH.
Qed.

Lemma list_in_app (x : string) (l l' : list string) :
  list_in x (l ++ l') = list_in x l || list_in x l'.
Proof. unfold list_in. apply existsb_app. Qed.

Lemma first_occurrences_from_extends (text order : list string) :
  exists more, first_occurrences_from order text = order ++ more.
Proof.
  revert order. induction text as [|x text IH]; intros order.
  - exists []. simpl. now rewrite app_nil_r.
  - unfold first_occurrences_from in *. cbn [fold_left].
    destruct (list_in x order).
    + apply IH.
    + destruct (IH (order ++ [x])) as [more E]. exists (x :: more).
      now rewrite E, <- app_assoc.
Qed.

Lemma position_first_occurrences (text order : list string) (x : string) :
  list_in x order = true ->
  position (first_occurrences_from order text) x = position order x.
Proof.
  intros H. destruct (first_occurrences_from_extends text order) as [more ->].
  now apply position_app.
Qed.

(** The loop, started on the dict of the items already met. *)
Lemma mask_loop_codes (text order : list string) (vector : list nat) :
  mask_loop text (entries_from 0 order, List.length order, vector)
  = Some (entries_from 0 (first_occurrences_from order text),
          List.length (first_occurrences_from order text),
          vector ++ map (position (first_occurrences_from order text)) text).
Proof.
  revert order vector. induction text as [|x text IH]; intros order vector.
  - simpl. now rewrite app_nil_r.
  - cbn [mask_loop mask_step]. rewrite dict_get_entries.
    unfold first_occurrences_from. cbn [fold_left map]. fold (first_occurrences_from order text).
    destruct (list_in x order) eqn:Hx.
    + rewrite dict_get_entries, Hx. rewrite IH.
      fold (first_occurrences_from order text).
      rewrite (position_first_occurrences text order x Hx), <- app_assoc. reflexivity.
    + rewrite !dict_set_entries0 by assumption.
      rewrite dict_get_entries, list_in_app. cbn [list_in existsb].
      rewrite String.eqb_refl, orb_true_r.
      replace (S (List.length order)) with (List.length (order ++ [x]))
        by (rewrite length_app; simpl; lia).
      rewrite IH. fold (first_occurrences_from (order ++ [x]) text).
      rewrite (position_first_occurrences text (order ++ [x]) x)
        by (rewrite list_in_app; cbn [list_in existsb]; now rewrite String.eqb_refl, orb_true_r).
      rewrite position_fresh by assumption. rewrite <- app_assoc. reflexivity.
Qed.

Lemma first_occurrences_from_app (order text1 text2 : list string) :
  first_occurrences_from order (text1 ++ text2)
  = first_occurrences_from (first_occurrences_from order text1) text2.
Proof. unfold first_occurrences_from. apply fold_left_app. Qed.

Lemma first_occurrences_from_in (text order : list string) (x : string) :
  list_in x (first_occurrences_from order text) = list_in x order || list_in x text.
Proof.
  revert order. induction text as [|y text IH]; intros order.
  - simpl. now rewrite orb_false_r.
  - unfold first_occurrences_from in *. cbn [fold_left].
    destruct (list_in y order) eqn:Hy; rewrite IH; cbn [list_in existsb];
      fold (list_in x text).
    + destruct (String.eqb x y) eqn:E; [|reflexivity].
      apply String.eqb_eq in E. subst. cbn [orb]. rewrite Hy. reflexivity.
    + rewrite list_in_app. cbn [list_in existsb]. rewrite orb_false_r, orb_assoc. reflexivity.
Qed.

(** [mask] never fails on a missing key, and it codes both texts with one
    coding: every item gets the rank of its first occurrence among the
    distinct items of [text1] followed by [text2]. *)
Theorem mask_first_occurrence_ranks (text1 text2 : list string) :
  mask text1 text2
  = Some (map (position (first_occurrences (text1 ++ text2))) text1,
          map (position (first_occurrences (text1 ++ text2))) text2).
Proof.
  unfold mask, first_occurrences.
  change (@nil (string * nat)) with (entries_from 0 []).
  change 0%nat with (List.length (@nil string)) at 2.
  rewrite mask_loop_codes. cbn [app]. rewrite mask_loop_codes. cbn [app].
  rewrite first_occurrences_from_app. f_equal. f_equal.
  apply map_ext_in. intros x Hx. symmetry. apply position_first_occurrences.
  rewrite first_occurrences_from_in. cbn [list_in existsb orb]. now apply list_in_iff.
Qed.

Lemma position_nth (order : list string) (x : string) :
  list_in x order = true -> nth_error order (position order x) = Some x.
Proof.
  induction order as [|y order IH]; [discriminate|].
  cbn [list_in existsb position]. destruct (String.eqb x y) eqn:E.
  - intros _. apply String.eqb_eq in E. now subst.
  - cbn [orb nth_error]. exact IH.
Qed.

Lemma mask_ranks (text1 text2 : list string) :
  mask text1 text2
  = Some (map (position (first_occurrences (text1 ++ text2))) text1,
          map (position (first_occurrences (text1 ++ text2))) text2).
Proof.
  unfold mask, first_occurrences.
  change (@nil (string * nat)) with (entries_from 0 []).
  change 0%nat with (List.length (@nil string)) at 2.
  rewrite mask_loop_codes. cbn [app]. rewrite mask_loop_codes. cbn [app].
  rewrite first_occurrences_from_app. f_equal. f_equal.
  apply map_ext_in. intros x Hx. symmetry. apply position_first_occurrences.
  rewrite first_occurrences_from_in. cbn [list_in existsb orb]. now apply list_in_iff.
Qed.

Lemma first_occurrences_from_NoDup (text order : list string) :
  NoDup order -> NoDup (first_occurrences_from order text).
Proof.
  revert order. induction text as [|x text IH]; intros order Hn; [exact Hn|].
  unfold first_occurrences_from in *. cbn [fold_left].
  destruct (list_in x order) eqn:Hx; [now apply IH|]. apply IH.
  apply (Permutation_NoDup (Permutation_cons_append order x)). constructor; [|assumption].
  intros Hi. apply list_in_iff in Hi. congruence.
Qed.

Lemma first_occurrences_length (text : list string) :
  List.length (first_occurrences text) = List.length (nodup string_dec text).
Proof.
  apply Permutation_length, NoDup_Permutation.
  - apply first_occurrences_from_NoDup. constructor.
  - apply NoDup_nodup.
  - intros x. rewrite nodup_In, <- !list_in_iff. unfold first_occurrences.
    rewrite first_occurrences_from_in. reflexivity.
Qed.

(** The codes that [mask] returns tell the items apart: it returns one code
    per item of each text; two positions of [text1] followed by [text2]
    carry the same code exactly when they carry the same item; and every
    code is below the number of distinct items. *)
Theorem mask_codes_injective (text1 text2 : list string) :
  exists vector1 vector2,
    mask text1 text2 = Some (vector1, vector2) /\
    List.length vector1 = List.length text1 /\
    List.length vector2 = List.length text2 /\
    (forall i j x y c d,
        nth_error (text1 ++ text2) i = Some x -> nth_error (text1 ++ text2) j = Some y ->
        nth_error (vector1 ++ vector2) i = Some c ->
        nth_error (vector1 ++ vector2) j = Some d ->
        (c = d <-> x = y)) /\
    (forall c, In c (vector1 ++ vector2) ->
               (c < List.length (nodup string_dec (text1 ++ text2)))%nat).
Proof.
  exists (map (position (first_occurrences (text1 ++ text2))) text1),
         (map (position (first_occurrences (text1 ++ text2))) text2).
  split; [apply mask_ranks|]. rewrite !length_map, <- map_app.
  assert (M : forall z, In z (text1 ++ text2) ->
                        list_in z (first_occurrences (text1 ++ text2)) = true).
  { intros z Hz. unfold first_occurrences. rewrite first_occurrences_from_in.
    cbn [list_in existsb orb]. now apply list_in_iff. }
  split; [reflexivity|]. split; [reflexivity|]. split.
  - intros i j x y c d Hx Hy Hc Hd.
    rewrite nth_error_map, Hx in Hc. rewrite nth_error_map, Hy in Hd.
    cbn [option_map] in Hc, Hd. injection Hc as <-. injection Hd as <-.
    split; [|now intros ->]. intros E.
    pose proof (position_nth _ _ (M x (nth_error_In _ _ Hx))) as Nx.
    pose proof (position_nth _ _ (M y (nth_error_In _ _ Hy))) as Ny.
    rewrite E in Nx. congruence.
  - intros c Hc. apply in_map_iff in Hc. destruct Hc as [x [<- Hx]].
    rewrite <- first_occurrences_length. apply nth_error_Some.
    rewrite (position_nth _ _ (M x Hx)). discriminate.
Qed.

Lemma mask_codes_injective_witness :
  exists vector1 vector2,
    mask ["b"; "a"; "b"] ["c"; "a"] = Some (vector1, vector2) /\
    vector1 = [0; 1; 0]%nat /\ vector2 = [2; 1]%nat.
Proof.
  destruct (mask_codes_injective ["b"; "a"; "b"] ["c"; "a"]) as [v1 [v2 [E _]]].
  exists v1, v2. split; [exact E|].
  vm_compute in E. injection E as <- <-. split; reflexivity.
Defined.
